(** * pypager: the incremental content-loading core of [pypager/pager.py]

    A shallow embedding of the [Pager] class: the registry of open sources,
    the per-source [_SourceInfo] objects, and the render-triggered prefetch
    of [_on_render] together with its two reader closures. *)

From Stdlib Require Import Ascii.
From stdpp Require Import base numbers list strings gmap.

(** ** Python values *)

(** The exceptions the modelled code can raise. [IOError] carries [str(e)]. *)
Inductive exn : Type :=
| IndexError
| KeyError
| ValueError
| ZeroDivisionError
| IOError (strerror : string).

(** The one-character string ['\n']. *)
Definition newline : string := String "010"%char "".

(** [l[i]] on a Python list: a negative index counts from the end, an index
    out of range is an [IndexError] (here [None]). *)
Definition py_getitem {A} (l : list A) (i : Z) : option A :=
  if decide (0 ≤ i)%Z then l !! Z.to_nat i
  else if decide (- Z.of_nat (length l) ≤ i)%Z
       then l !! Z.to_nat (Z.of_nat (length l) + i)
       else None.

(** [''.join(parts)]. *)
Definition py_join (parts : list string) : string :=
  foldr String.append "" parts.

(** [len(s)] of a string. *)
Definition py_len (s : string) : Z := Z.of_nat (String.length s).

(** ** Tokens and the document buffer *)

(** A Pygments token is a tuple of names; a chunk is a list of
    [(token, text)] pairs. *)
Definition Token : Type := list string.
Definition token_char : Type := Token * string.

(** The part of prompt_toolkit's [Buffer] the pager touches. *)
Record Buffer : Type := mkBuffer {
  text : string;
  cursor_position : Z
}.

(** [Buffer(loop=..., read_only=True)]: an empty document. *)
Definition Buffer_init : Buffer := {| text := ""; cursor_position := 0 |}.

(** ** The closures of [_on_render] *)

(** [line_tokens[-1].append(x)]; [None] is the [IndexError] of [[-1]] on an
    empty list. *)
Definition append_to_last {A} (x : A) (ls : list (list A)) : option (list (list A)) :=
  match last ls with
  | None => None
  | Some l => Some (<[pred (length ls) := l ++ [x]]> ls)
  end.

(** [handle_content(tokens)]: [line_tokens] and the counter [lines[0]] are the
    captured cells it mutates; the result is the new value of both and the
    returned list [data]. *)
Fixpoint handle_content (line_tokens : list (list token_char)) (lines : Z)
    (tokens : list token_char)
  : option (list (list token_char) * Z * list string) :=
  match tokens with
  | [] => Some (line_tokens, lines, [])
  | token_char :: tokens' =>
      let char := token_char.2 in
      if decide (char = newline) then
        match handle_content (line_tokens ++ [[]]) (lines - 1) tokens' with
        | Some (lt, n, data) => Some (lt, n, char :: data)
        | None => None
        end
      else
        match append_to_last token_char line_tokens with
        | None => None
        | Some lt1 =>
            match handle_content lt1 lines tokens' with
            | Some (lt, n, data) => Some (lt, n, char :: data)
            | None => None
            end
        end
  end.

(** [insert_text(list_of_fragments)] on the captured buffer [b];
    [forward_forever] is [self.forward_forever] at the time of the call. *)
Definition insert_text (forward_forever : bool) (b : Buffer)
    (list_of_fragments : list string) : Buffer :=
  let document_text := text b +:+ py_join list_of_fragments in
  let b1 := {| text := document_text; cursor_position := cursor_position b |} in
  if forward_forever
  then {| text := text b1; cursor_position := py_len (text b1) |}
  else b1.

(** ** Sources *)

(** Modelled from the spec: the variants of [Source] ([pypager/source.py] is
    not part of the sources at hand).  Section 3 of the specification lists
    File, Pipe, Generator, String and Empty; only a Pipe exposes a descriptor. *)
Inductive SourceKind : Type :=
| FileSource (filename : string)
| PipeSource (fileno : Z)
| GeneratorSource
| StringSource (contents : string)
| DummySource.

(** A source object: its identity on the Python heap and its variant.  Python
    compares and hashes these objects by identity. *)
Record Source : Type := mkSource {
  oid : nat;
  kind : SourceKind
}.

Global Instance SourceKind_eq_dec : EqDecision SourceKind.
Proof. solve_decision. Defined.
Global Instance Source_eq_dec : EqDecision Source.
Proof. solve_decision. Defined.

(** Modelled from the spec: [source.get_fd()], the readiness descriptor, or
    [None] for a source that must be read with blocking calls. *)
Definition get_fd (s : Source) : option Z :=
  match kind s with
  | PipeSource fileno => Some fileno
  | _ => None
  end.

(** What the host reports for the body window: [info.window_height],
    [info.ui_content.line_count] and [info.last_visible_line()]. *)
Record RenderInfo : Type := mkRenderInfo {
  window_height : Z;
  line_count : Z;
  last_visible_line : Z
}.

(** What a render cycle observes of the outside world: the render info of
    the body ([None] while the window has not been drawn) and, for every
    source, what [eof()] answers at that moment. *)
Record Env : Type := mkEnv {
  get_render_info : option RenderInfo;
  source_eof : Source → bool
}.

(** Modelled from the spec: [source.eof()]; for the Empty source it is always
    true, for the others it is what the source reports. *)
Definition eof (env : Env) (s : Source) : bool :=
  match kind s with
  | DummySource => true
  | _ => source_eof env s
  end.

(** [sources.remove(x)]: drops the first element that is the object [x];
    [None] is the [ValueError] raised when there is none. *)
Fixpoint py_remove (x : Source) (l : list Source) : option (list Source) :=
  match l with
  | [] => None
  | y :: l' =>
      if decide (oid y = oid x) then Some l'
      else match py_remove x l' with
           | Some r => Some (y :: r)
           | None => None
           end
  end.

(** ** Per-source pager data *)

Record _SourceInfo : Type := mk_SourceInfo {
  source : Source;
  buffer : Buffer;
  line_tokens : list (list token_char);
  marks : gmap string (Z * Z);
  waiting_for_input_stream : bool
}.

(** [_SourceInfo.__init__]. *)
Definition _SourceInfo_init (s : Source) : _SourceInfo :=
  {| source := s; buffer := Buffer_init; line_tokens := [[]];
     marks := ∅; waiting_for_input_stream := false |}.

Definition set_waiting (w : bool) (si : _SourceInfo) : _SourceInfo :=
  {| source := source si; buffer := buffer si; line_tokens := line_tokens si;
     marks := marks si; waiting_for_input_stream := w |}.

Definition set_content (lt : list (list token_char)) (b : Buffer)
    (si : _SourceInfo) : _SourceInfo :=
  {| source := source si; buffer := b; line_tokens := lt;
     marks := marks si;
     waiting_for_input_stream := waiting_for_input_stream si |}.

(** One prefetch episode: the closure that [_on_render] builds.  It holds
    the source, the [_SourceInfo] object whose [line_tokens] and [buffer] it
    captured (by its heap address), the counter cell [lines[0]] and [fd]. *)
Record Episode : Type := mkEpisode {
  ep_source : Source;
  ep_info : nat;
  ep_lines : Z;
  ep_fd : option Z
}.

Definition set_lines (n : Z) (e : Episode) : Episode :=
  {| ep_source := ep_source e; ep_info := ep_info e; ep_lines := n;
     ep_fd := ep_fd e |}.

(** ** The pager *)

(** The attributes of [Pager] that the registry and the prefetch use, and the
    parts of its collaborators they act on: the [_SourceInfo] objects alive
    on the heap ([heap], [next_id] is the next fresh object identity), the
    window that has the layout focus (named by the address of its
    [_SourceInfo]), the readers registered with the event loop, keyed by
    descriptor, the worker threads that have not finished, and the number of
    [application.invalidate()] calls so far. *)
Record Pager : Type := mkPager {
  sources : list Source;
  current_source_index : Z;
  in_colon_mode : bool;
  message : option string;
  displaying_help : bool;
  forward_forever : bool;
  source_info : gmap nat nat;
  heap : gmap nat _SourceInfo;
  next_id : nat;
  layout_focus : option nat;
  readers : list (Z * Episode);
  threads : list Episode;
  invalidations : nat
}.

Definition set_sources (v : list Source) (p : Pager) : Pager :=
  mkPager v (current_source_index p) (in_colon_mode p) (message p)
    (displaying_help p) (forward_forever p) (source_info p) (heap p)
    (next_id p) (layout_focus p) (readers p) (threads p) (invalidations p).

Definition set_current_source_index (v : Z) (p : Pager) : Pager :=
  mkPager (sources p) v (in_colon_mode p) (message p)
    (displaying_help p) (forward_forever p) (source_info p) (heap p)
    (next_id p) (layout_focus p) (readers p) (threads p) (invalidations p).

Definition set_in_colon_mode (v : bool) (p : Pager) : Pager :=
  mkPager (sources p) (current_source_index p) v (message p)
    (displaying_help p) (forward_forever p) (source_info p) (heap p)
    (next_id p) (layout_focus p) (readers p) (threads p) (invalidations p).

Definition set_message (v : option string) (p : Pager) : Pager :=
  mkPager (sources p) (current_source_index p) (in_colon_mode p) v
    (displaying_help p) (forward_forever p) (source_info p) (heap p)
    (next_id p) (layout_focus p) (readers p) (threads p) (invalidations p).

Definition set_displaying_help (v : bool) (p : Pager) : Pager :=
  mkPager (sources p) (current_source_index p) (in_colon_mode p) (message p)
    v (forward_forever p) (source_info p) (heap p)
    (next_id p) (layout_focus p) (readers p) (threads p) (invalidations p).

Definition set_forward_forever (v : bool) (p : Pager) : Pager :=
  mkPager (sources p) (current_source_index p) (in_colon_mode p) (message p)
    (displaying_help p) v (source_info p) (heap p)
    (next_id p) (layout_focus p) (readers p) (threads p) (invalidations p).

Definition set_source_info (v : gmap nat nat) (p : Pager) : Pager :=
  mkPager (sources p) (current_source_index p) (in_colon_mode p) (message p)
    (displaying_help p) (forward_forever p) v (heap p)
    (next_id p) (layout_focus p) (readers p) (threads p) (invalidations p).

Definition set_heap (v : gmap nat _SourceInfo) (p : Pager) : Pager :=
  mkPager (sources p) (current_source_index p) (in_colon_mode p) (message p)
    (displaying_help p) (forward_forever p) (source_info p) v
    (next_id p) (layout_focus p) (readers p) (threads p) (invalidations p).

Definition set_next_id (v : nat) (p : Pager) : Pager :=
  mkPager (sources p) (current_source_index p) (in_colon_mode p) (message p)
    (displaying_help p) (forward_forever p) (source_info p) (heap p)
    v (layout_focus p) (readers p) (threads p) (invalidations p).

Definition set_layout_focus (v : option nat) (p : Pager) : Pager :=
  mkPager (sources p) (current_source_index p) (in_colon_mode p) (message p)
    (displaying_help p) (forward_forever p) (source_info p) (heap p)
    (next_id p) v (readers p) (threads p) (invalidations p).

Definition set_readers (v : list (Z * Episode)) (p : Pager) : Pager :=
  mkPager (sources p) (current_source_index p) (in_colon_mode p) (message p)
    (displaying_help p) (forward_forever p) (source_info p) (heap p)
    (next_id p) (layout_focus p) v (threads p) (invalidations p).

Definition set_threads (v : list Episode) (p : Pager) : Pager :=
  mkPager (sources p) (current_source_index p) (in_colon_mode p) (message p)
    (displaying_help p) (forward_forever p) (source_info p) (heap p)
    (next_id p) (layout_focus p) (readers p) v (invalidations p).

(** [self.application.invalidate()]. *)
Definition invalidate (p : Pager) : Pager :=
  mkPager (sources p) (current_source_index p) (in_colon_mode p) (message p)
    (displaying_help p) (forward_forever p) (source_info p) (heap p)
    (next_id p) (layout_focus p) (readers p) (threads p) (S (invalidations p)).

(** How a method ends: it returns, or it raises; either way the attributes
    are as the method left them. *)
Inductive outcome : Type :=
| Return (p : Pager)
| Raise (e : exn) (p : Pager).

Definition and_then (o : outcome) (k : Pager → outcome) : outcome :=
  match o with
  | Return p => k p
  | Raise e p => Raise e p
  end.

(** [self._dummy_source = DummySource()], the first object [__init__] makes. *)
Definition _dummy_source : Source := {| oid := 0; kind := DummySource |}.

(** [Pager.__init__]. *)
Definition Pager_init : Pager :=
  {| sources := []; current_source_index := 0; in_colon_mode := false;
     message := None; displaying_help := false; forward_forever := false;
     source_info := ∅; heap := ∅; next_id := 1; layout_focus := None;
     readers := []; threads := []; invalidations := 0 |}.

(** The property [current_source]. *)
Definition current_source (p : Pager) : Source :=
  match py_getitem (sources p) (current_source_index p) with
  | Some s => s
  | None => _dummy_source
  end.

(** The property [current_source_info]: the registered [_SourceInfo], or on
    [KeyError] a new one that is not registered. *)
Definition current_source_info (p : Pager) : Pager * nat :=
  match source_info p !! oid (current_source p) with
  | Some a => (p, a)
  | None =>
      let a := next_id p in
      (set_next_id (S a)
         (set_heap (<[a := _SourceInfo_init (current_source p)]> (heap p)) p),
       a)
  end.

(** [add_source(source)]. *)
Definition add_source (s : Source) (p : Pager) : Pager :=
  let a := next_id p in
  let p := set_next_id (S a) (set_heap (<[a := _SourceInfo_init s]> (heap p)) p) in
  let p := set_source_info (<[oid s := a]> (source_info p)) p in
  let p := set_sources (sources p ++ [s]) p in
  let p := set_current_source_index (Z.of_nat (length (sources p)) - 1) p in
  set_layout_focus (Some a) p.

(** [focus_previous_source()]; [% len(self.sources)] raises on an empty list
    before anything is assigned. *)
Definition focus_previous_source (p : Pager) : outcome :=
  if decide (length (sources p) = 0) then Raise ZeroDivisionError p
  else
    let p := set_current_source_index
               ((current_source_index p - 1) `mod` Z.of_nat (length (sources p))) p in
    let '(p, a) := current_source_info p in
    Return (set_in_colon_mode false (set_layout_focus (Some a) p)).

(** [focus_next_source()]. *)
Definition focus_next_source (p : Pager) : outcome :=
  if decide (length (sources p) = 0) then Raise ZeroDivisionError p
  else
    let p := set_current_source_index
               ((current_source_index p + 1) `mod` Z.of_nat (length (sources p))) p in
    let '(p, a) := current_source_info p in
    Return (set_in_colon_mode false (set_layout_focus (Some a) p)).

(** [remove_current_source()]. *)
Definition remove_current_source (p : Pager) : outcome :=
  if decide (1 < length (sources p)) then
    let current_source_index := current_source p in
    and_then (focus_previous_source p) (λ p,
      match py_remove current_source_index (sources p) with
      | Some l => Return (set_sources l p)
      | None => Raise ValueError p
      end)
  else Return (set_message (Some "Can't remove the last buffer.") p).

Section Collaborators.

(** [HELP], the text of [pypager/help.py]. *)
Variable HELP : string.

(** Whether [FileSource(filename, lexer=lexer)] can be constructed: [None]
    when the file opens, [Some e] when the constructor raises [e]. *)
Variable FileSource_init : string → option exn.

(** [open_file(filename)]; only [IOError] is caught. *)
Definition open_file (filename : string) (p : Pager) : outcome :=
  match FileSource_init filename with
  | Some (IOError e) => Return (set_message (Some e) p)
  | Some e => Raise e p
  | None =>
      let source := {| oid := next_id p; kind := FileSource filename |} in
      Return (add_source source (set_next_id (S (next_id p)) p))
  end.

(** [display_help()]. *)
Definition display_help (p : Pager) : Pager :=
  if displaying_help p then p
  else
    let source := {| oid := next_id p; kind := StringSource HELP |} in
    let p := add_source source (set_next_id (S (next_id p)) p) in
    set_displaying_help true p.

End Collaborators.

(** [quit_help()]. *)
Definition quit_help (p : Pager) : outcome :=
  if displaying_help p then
    and_then (remove_current_source p) (λ p,
      Return (set_displaying_help false p))
  else Return p.

(** ** The render-triggered prefetch *)

(** Modelled from the spec: the readiness registration of the host event
    loop, [add_reader(fd, callback)] and [remove_reader(fd)], keyed by
    descriptor: a descriptor has at most one callback. *)
Definition remove_reader (fd : Z) (rs : list (Z * Episode)) : list (Z * Episode) :=
  filter (λ r, r.1 ≠ fd) rs.

Definition add_reader (fd : Z) (e : Episode) (rs : list (Z * Episode))
  : list (Z * Episode) :=
  (fd, e) :: remove_reader fd rs.

(** The callback registered for [fd], if any. *)
Fixpoint reader_of (fd : Z) (rs : list (Z * Episode)) : option Episode :=
  match rs with
  | [] => None
  | r :: rs' => if decide (r.1 = fd) then Some r.2 else reader_of fd rs'
  end.

(** The closure registered under [fd] after its cell [lines[0]] changed. *)
Fixpoint update_reader (fd : Z) (e : Episode) (rs : list (Z * Episode))
  : list (Z * Episode) :=
  match rs with
  | [] => []
  | r :: rs' =>
      if decide (r.1 = fd) then (fd, e) :: rs' else r :: update_reader fd e rs'
  end.

(** [self.source_info[source]] followed to the object; [None] is the
    [KeyError] of the dictionary. *)
Definition lookup_info (p : Pager) (s : Source) : option (nat * _SourceInfo) :=
  match source_info p !! oid s with
  | Some a =>
      match heap p !! a with
      | Some si => Some (a, si)
      | None => None
      end
  | None => None
  end.

(** [_on_render(cli)]. *)
Definition _on_render (env : Env) (p : Pager) : outcome :=
  let info := get_render_info env in
  let source := current_source p in
  match lookup_info p source with
  | None => Raise KeyError p
  | Some (a, source_info) =>
      if negb (waiting_for_input_stream source_info) && negb (eof env source) then
        match info with
        | None => Return p
        | Some info =>
            let lines_below_bottom := (line_count info - last_visible_line info)%Z in
            if bool_decide (lines_below_bottom < window_height info * 2)%Z
               || forward_forever p
            then
              let lines := (window_height info * 2 - lines_below_bottom)%Z in
              let fd := get_fd source in
              let e := {| ep_source := source; ep_info := a;
                          ep_lines := lines; ep_fd := fd |} in
              let p := set_heap (<[a := set_waiting true source_info]> (heap p)) p in
              let p := invalidate p in
              match fd with
              | Some fd => Return (set_readers (add_reader fd e (readers p)) p)
              | None => Return (set_threads (threads p ++ [e]) p)
              end
            else Return p
        end
      else Return p
  end.

(** What both readers do with a chunk: [data = handle_content(tokens)] then
    [insert_text(data)], on the captured [line_tokens], counter and buffer. *)
Definition read_into (forward_forever : bool) (tokens : list token_char)
    (lines : Z) (si : _SourceInfo) : option (_SourceInfo * Z) :=
  match handle_content (line_tokens si) lines tokens with
  | None => None
  | Some (lt, n, data) =>
      Some (set_content lt (insert_text forward_forever (buffer si) data) si, n)
  end.

(** [receive_content_from_fd()], called by the event loop for the reader
    registered under [key]: [e] is that closure, [si] the [_SourceInfo] it
    captured, [tokens] what [source.read_chunk()] returns. *)
Definition receive_content_from_fd (env : Env) (tokens : list token_char)
    (key : Z) (e : Episode) (si : _SourceInfo) (p : Pager) : outcome :=
  match read_into (forward_forever p) tokens (ep_lines e) si with
  | None => Raise IndexError p
  | Some (si, n) =>
      let e := set_lines n e in
      let p := set_readers (update_reader key e (readers p)) p in
      let p := set_heap (<[ep_info e := si]> (heap p)) p in
      let p :=
        if bool_decide (n ≤ 0)%Z || eof env (ep_source e) then
          let p := match ep_fd e with
                   | Some fd => set_readers (remove_reader fd (readers p)) p
                   | None => p
                   end in
          set_heap (<[ep_info e := set_waiting false si]> (heap p)) p
        else p in
      Return (invalidate p)
  end.

(** One turn of the [while] loop of [receive_content_from_generator()], run
    by the worker thread at position [i]: the test of the loop and then
    either the body or, when the test fails, the statement after the loop,
    with which the thread ends. *)
Definition receive_content_from_generator (env : Env) (tokens : list token_char)
    (i : nat) (e : Episode) (si : _SourceInfo) (p : Pager) : outcome :=
  if bool_decide (0 < ep_lines e)%Z && negb (eof env (ep_source e)) then
    match read_into (forward_forever p) tokens (ep_lines e) si with
    | None => Raise IndexError (set_threads (delete i (threads p)) p)
    | Some (si, n) =>
        let p := set_threads (<[i := set_lines n e]> (threads p)) p in
        let p := set_heap (<[ep_info e := si]> (heap p)) p in
        Return (invalidate p)
    end
  else
    let p := set_heap (<[ep_info e := set_waiting false si]> (heap p)) p in
    Return (set_threads (delete i (threads p)) p).

(** ** The pager as a transition system *)

Definition state_of (o : outcome) : Pager :=
  match o with
  | Return p => p
  | Raise _ p => p
  end.

(** What can happen to a pager: a method is called, a key binding sets one of
    the public flags, the application renders, a descriptor becomes ready,
    or a worker thread takes a turn. *)
Inductive event : Type :=
| ev_add_source (s : Source)
| ev_remove_current_source
| ev_focus_previous_source
| ev_focus_next_source
| ev_open_file (FileSource_init : string → option exn) (filename : string)
| ev_display_help (HELP : string)
| ev_quit_help
| ev_set_forward_forever (v : bool)
| ev_set_in_colon_mode (v : bool)
| ev_key_pressed
| ev_render (env : Env)
| ev_fd_ready (env : Env) (tokens : list token_char) (key : Z)
| ev_worker_turn (env : Env) (tokens : list token_char) (i : nat).

Inductive step : Pager → event → Pager → Prop :=
| step_add_source s p :
    step p (ev_add_source s) (add_source s p)
| step_remove_current_source p :
    step p ev_remove_current_source (state_of (remove_current_source p))
| step_focus_previous_source p :
    step p ev_focus_previous_source (state_of (focus_previous_source p))
| step_focus_next_source p :
    step p ev_focus_next_source (state_of (focus_next_source p))
| step_open_file ctor filename p :
    step p (ev_open_file ctor filename) (state_of (open_file ctor filename p))
| step_display_help HELP p :
    step p (ev_display_help HELP) (display_help HELP p)
| step_quit_help p :
    step p ev_quit_help (state_of (quit_help p))
| step_set_forward_forever v p :
    step p (ev_set_forward_forever v) (set_forward_forever v p)
| step_set_in_colon_mode v p :
    step p (ev_set_in_colon_mode v) (set_in_colon_mode v p)
| step_key_pressed p :
    step p ev_key_pressed (set_message None p)
| step_render env p :
    step p (ev_render env) (state_of (_on_render env p))
| step_fd_ready env tokens key e si p :
    reader_of key (readers p) = Some e →
    heap p !! ep_info e = Some si →
    step p (ev_fd_ready env tokens key)
      (state_of (receive_content_from_fd env tokens key e si p))
| step_worker_turn env tokens i e si p :
    threads p !! i = Some e →
    heap p !! ep_info e = Some si →
    step p (ev_worker_turn env tokens i)
      (state_of (receive_content_from_generator env tokens i e si p)).

(** The states a pager can be in: those a run reaches from [Pager_init]. *)
Inductive reachable : Pager → Prop :=
| reachable_init : reachable Pager_init
| reachable_step p ev p' : reachable p → step p ev p' → reachable p'.

(** The prefetch episodes in progress that write to the [_SourceInfo] at
    address [a]: registered readers and live worker threads. *)
Definition episodes (p : Pager) : list Episode :=
  (snd <$> readers p) ++ threads p.

(** How many of the episodes [l] work on the object at [a]. *)
Definition on (a : nat) (l : list Episode) : nat :=
  length (filter (λ e, ep_info e = a) l).

Definition active_on (a : nat) (p : Pager) : nat := on a (episodes p).

(** [waiting_for_input_stream] of the object at address [a]. *)
Definition flagged (a : nat) (p : Pager) : bool :=
  match heap p !! a with
  | Some si => waiting_for_input_stream si
  | None => false
  end.

(** ** The pager on a pipe *)

(** [Pager.from_pipe(loop)]: [stdin_isatty] and [stdin_fileno] are what
    [sys.stdin.isatty()] and [sys.stdin.fileno()] answer; [None] is the
    [AssertionError] of the [assert].  The [PipeSource] is the first object
    made after [Pager.__init__]. *)
Definition from_pipe (stdin_isatty : bool) (stdin_fileno : Z) : option Pager :=
  if stdin_isatty then None
  else
    let self := Pager_init in
    let source := {| oid := next_id self; kind := PipeSource stdin_fileno |} in
    Some (add_source source (set_next_id (S (next_id self)) self)).

(** ** The style of [pypager/style.py] *)

(** An element of a token tuple or an attribute of [Attrs]: a string, a
    boolean or [None]. *)
Inductive pyvalue : Type :=
| PStr (s : string)
| PBool (b : bool)
| PNone.

(** prompt_toolkit's [Attrs] named tuple. *)
Record Attrs : Type := mkAttrs {
  attr_color : pyvalue;
  attr_bgcolor : pyvalue;
  attr_bold : pyvalue;
  attr_underline : pyvalue;
  attr_italic : pyvalue;
  attr_blink : pyvalue;
  attr_reverse : pyvalue
}.

Section PypagerStyle.

(** [self.ui_style.get_attrs_for_token], the style that prompt_toolkit's
    [style_from_dict] builds from [ui_style]. *)
Variable ui_style_get_attrs_for_token : list pyvalue → exn + Attrs.

(** [PypagerStyle.get_attrs_for_token(token)]; unpacking a tuple that has
    not eight elements raises [ValueError]. *)
Definition get_attrs_for_token (token : list pyvalue) : exn + Attrs :=
  match token with
  | PStr c :: _ =>
      if decide (c = "C") then
        match token with
        | [_; fg; bg; bold; underline; italic; blink; reverse] =>
            inr (mkAttrs fg bg bold underline italic blink reverse)
        | _ => inl ValueError
        end
      else ui_style_get_attrs_for_token token
  | _ => ui_style_get_attrs_for_token token
  end.

End PypagerStyle.

(** ** Properties of the model *)

(** The characters of one line, in order. *)
Definition line_text (line : list token_char) : string :=
  py_join (snd <$> line).

(** The lines joined again, a newline between consecutive lines; the last
    line is the open one and gets no terminator. *)
Fixpoint rejoin (ls : list (list token_char)) : string :=
  match ls with
  | [] => ""
  | l :: ls' =>
      match ls' with
      | [] => line_text l
      | _ :: _ => line_text l +:+ newline +:+ rejoin ls'
      end
  end.

(** The text/lines equivalence of a [_SourceInfo]: there is an open line, the
    lines joined again are the text of the buffer, and no stored pair is a
    terminator. *)
Definition text_lines_equiv (si : _SourceInfo) : Prop :=
  line_tokens si ≠ [] ∧
  rejoin (line_tokens si) = text (buffer si) ∧
  Forall (Forall (λ tc : token_char, tc.2 ≠ newline)) (line_tokens si).

(** A pair of a chunk holds one character (the contract of [read_chunk]). *)
Definition one_char (tc : token_char) : Prop := String.length tc.2 = 1%nat.

(** No character stored in the lines is the newline character. *)
Definition newline_free (ls : list (list token_char)) : Prop :=
  Forall (Forall (λ tc : token_char,
            "010"%char ∉ String.list_ascii_of_string tc.2)) ls.

(** The number of terminators of a chunk. *)
Definition terminators (tokens : list token_char) : nat :=
  length (filter (λ tc : token_char, tc.2 = newline) tokens).

(** Every [_SourceInfo] alive satisfies [Q]. *)
Definition heap_all (Q : _SourceInfo → Prop) (p : Pager) : Prop :=
  ∀ a si, heap p !! a = Some si → Q si.

(** What a method of the registry may do to the objects the prefetch works
    on: the readers and the threads stay as they are, and a [_SourceInfo]
    either is as before or is a new object at a fresh address. *)
Definition calm (p p' : Pager) : Prop :=
  readers p' = readers p ∧
  threads p' = threads p ∧
  next_id p ≤ next_id p' ∧
  ∀ a, heap p' !! a = heap p !! a ∨
       (next_id p ≤ a < next_id p' ∧
        ∃ s, heap p' !! a = Some (_SourceInfo_init s)).

(** The invariant of the prefetch: objects live below [next_id], a reader is
    registered under the descriptor its closure captured, and an object has
    at most as many episodes as its flag allows: one when
    [waiting_for_input_stream] is set, none otherwise. *)
Definition prefetch_inv (p : Pager) : Prop :=
  (∀ a, is_Some (heap p !! a) → a < next_id p) ∧
  (∀ k e, (k, e) ∈ readers p → ep_fd e = Some k) ∧
  (∀ a, active_on a p ≤ if flagged a p then 1 else 0).

(** The event [ev], taken in [p], is the end of the episode on the object at
    [a]: a reader's chunk that satisfied the deficit or met eof, or the turn
    of a worker whose loop test fails. *)
Definition episode_ends (p : Pager) (ev : event) (a : nat) : Prop :=
  match ev with
  | ev_fd_ready env tokens key =>
      ∃ e, reader_of key (readers p) = Some e ∧ ep_info e = a ∧
           ((ep_lines e - Z.of_nat (terminators tokens) ≤ 0)%Z
            ∨ eof env (ep_source e) = true)
  | ev_worker_turn env tokens i =>
      ∃ e, threads p !! i = Some e ∧ ep_info e = a ∧
           ((ep_lines e ≤ 0)%Z ∨ eof env (ep_source e) = true)
  | _ => False
  end.

(** The invariant of the registry: the index points into [sources]. *)
Definition index_valid (p : Pager) : Prop :=
  (0 ≤ current_source_index p < Z.of_nat (length (sources p)))%Z.

(** [lines_below_bottom] of [_on_render]. *)
Definition lines_below_bottom (info : RenderInfo) : Z :=
  (line_count info - last_visible_line info)%Z.

(** The focused source has its [_SourceInfo] at [a], no read is in flight
    for it and it is not at eof. *)
Definition idle_not_eof (env : Env) (p : Pager) (a : nat) (si : _SourceInfo)
  : Prop :=
  lookup_info p (current_source p) = Some (a, si) ∧
  waiting_for_input_stream si = false ∧
  eof env (current_source p) = false.

(** Between [p] and [p'] the episode [e] was started and nothing else
    happened to the readers and the threads: [e] was registered as the
    reader of its descriptor, or a worker thread was started for it. *)
Definition prefetch_started (p p' : Pager) (e : Episode) : Prop :=
  match ep_fd e with
  | Some fd => readers p' = add_reader fd e (readers p) ∧ threads p' = threads p
  | None => readers p' = readers p ∧ threads p' = threads p ++ [e]
  end.



(** Follow-forever as the specification states it: with follow-forever on,
    every render cycle with the focused source idle and not at eof begins a
    prefetch, however many lines are below the bottom. *)
Definition follow_forever_as_specified : Prop :=
  ∀ env p a si,
    forward_forever p = true →
    idle_not_eof env p a si →
    ∃ p' e, _on_render env p = Return p' ∧ flagged a p' = true ∧
            prefetch_started p p' e ∧ ep_info e = a ∧
            ep_source e = current_source p.

(** Cycling the focus as the specification states it: on every registry,
    the empty one included, both methods return. *)
Definition focus_total_as_specified : Prop :=
  ∀ p, ∃ p1 p2,
    focus_next_source p = Return p1 ∧
    current_source_index p1
    = ((current_source_index p + 1) `mod` Z.of_nat (length (sources p)))%Z ∧
    in_colon_mode p1 = false ∧
    focus_previous_source p = Return p2 ∧
    current_source_index p2
    = ((current_source_index p - 1) `mod` Z.of_nat (length (sources p)))%Z ∧
    in_colon_mode p2 = false.

(** Sample objects for the examples: two sources made by the caller, and
    what a render cycle can observe. *)
Definition sample_pipe : Source := {| oid := 100; kind := PipeSource 0 |}.
Definition sample_generator : Source := {| oid := 101; kind := GeneratorSource |}.
Definition sample_info (below : Z) : RenderInfo :=
  {| window_height := 10; line_count := below + 20; last_visible_line := 20 |}.
Definition sample_env (below : Z) : Env :=
  {| get_render_info := Some (sample_info below); source_eof := λ _, false |}.

(** A sample file system: every file but ["missing"] can be opened. *)
Definition sample_FileSource_init (filename : string) : option exn :=
  if String.eqb filename "missing"
  then Some (IOError "[Errno 2] No such file or directory: 'missing'")
  else None.

(** Every open source is registered: [source_info] has an entry for it and
    the entries of [source_info] are live [_SourceInfo] objects. *)
Definition registered (p : Pager) : Prop :=
  (∀ o a, source_info p !! o = Some a → is_Some (heap p !! a)) ∧
  (∀ s, s ∈ sources p → is_Some (source_info p !! oid s)).

(** A method that registers nothing and opens nothing. *)
Definition shrinks (p p' : Pager) : Prop :=
  source_info p' = source_info p ∧ (∀ s, s ∈ sources p' → s ∈ sources p).

(** The objects of [p] are still alive in [p']. *)
Definition keeps_objects (p p' : Pager) : Prop :=
  ∀ a, is_Some (heap p !! a) → is_Some (heap p' !! a).

(** A run of the pager from [p] to [p']: any number of events. *)
Inductive steps : Pager → Pager → Prop :=
| steps_refl p : steps p p
| steps_step p ev p' p'' : steps p p' → step p' ev p'' → steps p p''.

(** What one event can do to a [_SourceInfo] object: nothing, set or clear
    its flag, or append a chunk to it (and clear the flag with it), where
    [ff] is [forward_forever] at the time. *)
Inductive touched (ff : bool) (si : _SourceInfo) : _SourceInfo → Prop :=
| touched_same : touched ff si si
| touched_flag w : touched ff si (set_waiting w si)
| touched_read tokens n si1 n1 :
    read_into ff tokens n si = Some (si1, n1) → touched ff si si1
| touched_read_end tokens n si1 n1 :
    read_into ff tokens n si = Some (si1, n1) →
    touched ff si (set_waiting false si1).

(** The object [si'] is [si] after some reads: it belongs to the same
    source, has the same marks, and its text is the text of [si] with
    something appended. *)
Definition extends (si si' : _SourceInfo) : Prop :=
  source si' = source si ∧
  marks si' = marks si ∧
  ∃ suffix, text (buffer si') = text (buffer si) +:+ suffix.

(** Every prefetch episode in progress works on a live object. *)
Definition episodes_alive (p : Pager) : Prop :=
  ∀ e, e ∈ episodes p → is_Some (heap p !! ep_info e).

(** The index is a position of [sources] or the position just behind it. *)
Definition index_bounded (p : Pager) : Prop :=
  (0 ≤ current_source_index p ≤ Z.of_nat (length (sources p)))%Z.

(** ** Strings *)

Lemma string_app_cons (c : ascii) (s t : string) :
  String c s +:+ t = String c (s +:+ t).
Proof. reflexivity. Qed.

Lemma string_app_nil_r (s : string) : s +:+ "" = s.
Proof.
  induction s as [|c s IH]; [done|]. by rewrite string_app_cons, IH.
Qed.

Lemma string_app_assoc (s1 s2 s3 : string) :
  (s1 +:+ s2) +:+ s3 = s1 +:+ (s2 +:+ s3).
Proof.
  induction s1 as [|c s1 IH]; [done|]. by rewrite !string_app_cons, IH.
Qed.

Lemma py_join_app (l1 l2 : list string) :
  py_join (l1 ++ l2) = py_join l1 +:+ py_join l2.
Proof.
  induction l1 as [|s l1 IH]; simpl; [done|].
  by rewrite IH, string_app_assoc.
Qed.

Lemma line_text_snoc (l : list token_char) (x : token_char) :
  line_text (l ++ [x]) = line_text l +:+ x.2.
Proof.
  unfold line_text. rewrite fmap_app, py_join_app. simpl.
  by rewrite string_app_nil_r.
Qed.

(** ** The chunk handler keeps text and lines equivalent *)

Lemma rejoin_snoc (ls : list (list token_char)) (l : list token_char) :
  ls ≠ [] → rejoin (ls ++ [l]) = rejoin ls +:+ newline +:+ line_text l.
Proof.
  induction ls as [|l0 ls IH]; [done|]. intros _.
  destruct ls as [|l1 ls]; [done|].
  change (rejoin ((l0 :: l1 :: ls) ++ [l]))
    with (line_text l0 +:+ newline +:+ rejoin ((l1 :: ls) ++ [l])).
  rewrite IH by done.
  change (rejoin (l0 :: l1 :: ls))
    with (line_text l0 +:+ newline +:+ rejoin (l1 :: ls)).
  by rewrite !string_app_assoc.
Qed.

Lemma rejoin_extend_last (ls : list (list token_char)) (l : list token_char)
    (x : token_char) :
  rejoin (ls ++ [l ++ [x]]) = rejoin (ls ++ [l]) +:+ x.2.
Proof.
  induction ls as [|l0 ls IH]; simpl.
  - apply line_text_snoc.
  - destruct ls as [|l1 ls]; simpl in *.
    + by rewrite line_text_snoc, !string_app_assoc.
    + by rewrite IH, !string_app_assoc.
Qed.

Lemma append_to_last_snoc {A} (x : A) (ls : list (list A)) (l : list A) :
  append_to_last x (ls ++ [l]) = Some (ls ++ [l ++ [x]]).
Proof.
  unfold append_to_last. rewrite last_snoc. f_equal.
  rewrite length_app. simpl.
  replace (pred (length ls + 1)) with (length ls + 0) by lia.
  by rewrite insert_app_r.
Qed.

Lemma nonempty_snoc {A} (ls : list A) :
  ls ≠ [] → ∃ ls' l, ls = ls' ++ [l].
Proof.
  induction ls as [|l ls _] using rev_ind; [done|]. eauto.
Qed.

Lemma handle_content_spec (tokens : list token_char) :
  ∀ (lt : list (list token_char)) (n : Z),
    lt ≠ [] →
    ∃ lt',
      handle_content lt n tokens
        = Some (lt', (n - Z.of_nat (terminators tokens))%Z, snd <$> tokens) ∧
      lt' ≠ [] ∧
      rejoin lt' = rejoin lt +:+ py_join (snd <$> tokens) ∧
      (Forall (Forall (λ tc : token_char, tc.2 ≠ newline)) lt →
       Forall (Forall (λ tc : token_char, tc.2 ≠ newline)) lt') ∧
      (Forall one_char tokens → newline_free lt → newline_free lt').
Proof.
  induction tokens as [|tc tokens IH]; intros lt n Hne.
  - exists lt. simpl. rewrite Z.sub_0_r, string_app_nil_r. done.
  - simpl. unfold terminators. rewrite filter_cons.
    destruct (decide (tc.2 = newline)) as [Hnl|Hnl].
    + destruct (IH (lt ++ [[]]) (n - 1)%Z) as (lt' & -> & Hne' & Hj & Hst & Hch).
      { by destruct lt. }
      exists lt'. split.
      { simpl. unfold terminators. do 3 f_equal. lia. }
      split; [done|]. split.
      { rewrite Hj, rejoin_snoc by done. rewrite Hnl.
        unfold line_text. simpl. by rewrite !string_app_assoc. }
      split.
      { intros H. apply Hst. apply Forall_app. split; [done|].
        by repeat constructor. }
      intros Ht H. apply Hch; [by inversion Ht|].
      apply Forall_app. split; [done|]. by repeat constructor.
    + destruct (nonempty_snoc lt Hne) as (init & l & ->).
      rewrite append_to_last_snoc.
      destruct (IH (init ++ [l ++ [tc]]) n) as (lt' & -> & Hne' & Hj & Hst & Hch).
      { by destruct init. }
      exists lt'. split; [done|]. split; [done|]. split.
      { by rewrite Hj, rejoin_extend_last, !string_app_assoc. }
      split.
      { intros H. apply Hst. apply Forall_app in H as [H1 H2].
        apply Forall_app. split; [done|]. constructor; [|done].
        apply Forall_app. split; [by inversion H2|]. by repeat constructor. }
      intros Ht H. apply Hch; [by inversion Ht|].
      apply Forall_app in H as [H1 H2].
      apply Forall_app. split; [done|]. constructor; [|done].
      apply Forall_app. split; [by inversion H2|].
      constructor; [|done].
      inversion Ht as [|? ? H1c _]; subst.
      unfold one_char in H1c.
      destruct (tc.2) as [|c [|c' s]] eqn:E; simplify_eq/=.
      intros Hin. apply list_elem_of_singleton in Hin. subst c.
      by apply Hnl.
Qed.

Lemma text_lines_equiv_init (s : Source) : text_lines_equiv (_SourceInfo_init s).
Proof. repeat split; [done|]. by repeat constructor. Qed.

Lemma text_lines_equiv_set_waiting (w : bool) (si : _SourceInfo) :
  text_lines_equiv si → text_lines_equiv (set_waiting w si).
Proof. done. Qed.

Lemma read_into_equiv (ff : bool) (tokens : list token_char) (n : Z)
    (si : _SourceInfo) :
  text_lines_equiv si →
  ∃ si',
    read_into ff tokens n si = Some (si', (n - Z.of_nat (terminators tokens))%Z) ∧
    text_lines_equiv si' ∧
    text (buffer si') = text (buffer si) +:+ py_join (snd <$> tokens) ∧
    (Forall one_char tokens → newline_free (line_tokens si) →
     newline_free (line_tokens si')).
Proof.
  intros (Hne & Hj & Hst).
  destruct (handle_content_spec tokens (line_tokens si) n Hne)
    as (lt' & Hh & Hne' & Hj' & Hst' & Hch).
  unfold read_into. rewrite Hh. eexists. split; [done|].
  assert (text (insert_text ff (buffer si) (snd <$> tokens))
          = text (buffer si) +:+ py_join (snd <$> tokens)) as Ht.
  { unfold insert_text. by destruct ff. }
  repeat split; simpl; auto.
  by rewrite Ht, Hj', Hj.
Qed.

(** ** Every operation keeps a property of the [_SourceInfo] objects that
    new objects have and that reading and the in-flight flag preserve *)

Section HeapAll.

Variable Q : _SourceInfo → Prop.
Hypothesis Q_init : ∀ s, Q (_SourceInfo_init s).
Hypothesis Q_waiting : ∀ w si, Q si → Q (set_waiting w si).
Hypothesis Q_read : ∀ ff tokens n si si' n',
  Q si → read_into ff tokens n si = Some (si', n') → Q si'.

Lemma heap_all_insert (p : Pager) (a : nat) (si : _SourceInfo) :
  heap_all Q p → Q si → heap_all Q (set_heap (<[a:=si]> (heap p)) p).
Proof.
  intros Hp Hsi b sb. simpl.
  rewrite lookup_insert_Some. intros [[_ <-]|[_ Hb]]; eauto.
Qed.

Lemma heap_all_same_heap (p p' : Pager) :
  heap p' = heap p → heap_all Q p → heap_all Q p'.
Proof. unfold heap_all. by intros ->. Qed.

Lemma heap_all_current_source_info (p : Pager) :
  heap_all Q p → heap_all Q (current_source_info p).1.
Proof.
  intros Hp. unfold current_source_info.
  destruct (source_info p !! oid (current_source p)); [done|].
  intros b sb. simpl. rewrite lookup_insert_Some.
  intros [[_ <-]|[_ Hb]]; eauto.
Qed.

Lemma heap_all_add_source (s : Source) (p : Pager) :
  heap_all Q p → heap_all Q (add_source s p).
Proof.
  intros Hp b sb. unfold add_source. simpl.
  rewrite lookup_insert_Some. intros [[_ <-]|[_ Hb]]; eauto.
Qed.

Lemma heap_all_focus_previous_source (p : Pager) :
  heap_all Q p → heap_all Q (state_of (focus_previous_source p)).
Proof.
  intros Hp. unfold focus_previous_source. case_decide; [done|].
  match goal with |- context [current_source_info ?q] =>
    pose proof (heap_all_current_source_info q) as Hq;
    destruct (current_source_info q) as [p1 a1] end.
  simpl in *. apply (heap_all_same_heap p1); [done|]. by apply Hq.
Qed.

Lemma heap_all_focus_next_source (p : Pager) :
  heap_all Q p → heap_all Q (state_of (focus_next_source p)).
Proof.
  intros Hp. unfold focus_next_source. case_decide; [done|].
  match goal with |- context [current_source_info ?q] =>
    pose proof (heap_all_current_source_info q) as Hq;
    destruct (current_source_info q) as [p1 a1] end.
  simpl in *. apply (heap_all_same_heap p1); [done|]. by apply Hq.
Qed.

Lemma heap_all_remove_current_source (p : Pager) :
  heap_all Q p → heap_all Q (state_of (remove_current_source p)).
Proof.
  intros Hp. unfold remove_current_source. case_decide; [|done].
  pose proof (heap_all_focus_previous_source p Hp) as HQ.
  destruct (focus_previous_source p) as [p1|e p1]; simpl in *; [|done].
  by destruct (py_remove _ _).
Qed.

Lemma heap_all_quit_help (p : Pager) :
  heap_all Q p → heap_all Q (state_of (quit_help p)).
Proof.
  intros Hp. unfold quit_help. destruct (displaying_help p); [|done].
  pose proof (heap_all_remove_current_source p Hp) as HQ.
  by destruct (remove_current_source p).
Qed.

Lemma heap_all_open_file ctor filename (p : Pager) :
  heap_all Q p → heap_all Q (state_of (open_file ctor filename p)).
Proof.
  intros Hp. unfold open_file.
  destruct (ctor filename) as [[]|]; try done. simpl.
  by apply heap_all_add_source.
Qed.

Lemma heap_all_display_help HELP (p : Pager) :
  heap_all Q p → heap_all Q (display_help HELP p).
Proof.
  intros Hp. unfold display_help. destruct (displaying_help p); [done|].
  apply (heap_all_same_heap
           (add_source {| oid := next_id p; kind := StringSource HELP |}
              (set_next_id (S (next_id p)) p))); [reflexivity|].
  apply heap_all_add_source. exact Hp.
Qed.

Lemma lookup_info_Some (p : Pager) (s : Source) a si :
  lookup_info p s = Some (a, si) →
  source_info p !! oid s = Some a ∧ heap p !! a = Some si.
Proof.
  unfold lookup_info. destruct (source_info p !! oid s) as [a'|]; [|done].
  destruct (heap p !! a') as [si'|] eqn:E; [|done]. by intros [= <- <-].
Qed.

Lemma heap_all_on_render env (p : Pager) :
  heap_all Q p → heap_all Q (state_of (_on_render env p)).
Proof.
  intros Hp. unfold _on_render.
  destruct (lookup_info p (current_source p)) as [[a si]|] eqn:E; [|done].
  apply lookup_info_Some in E as [_ Hsi].
  destruct (negb _ && negb _); [|done].
  destruct (get_render_info env) as [info|]; [|done].
  destruct (bool_decide _ || forward_forever p); [|done].
  assert (Q (set_waiting true si)) by eauto.
  destruct (get_fd (current_source p));
    (intros b sb; simpl; rewrite lookup_insert_Some;
     intros [[_ <-]|[_ ?]]; eauto).
Qed.

Local Ltac heap_all_lookup :=
  let b := fresh "b" in let sb := fresh "sb" in let Hb := fresh "Hb" in
  intros b sb; simpl; intros Hb;
  repeat (apply lookup_insert_Some in Hb as [[_ <-]|[_ Hb]]); eauto.

Lemma heap_all_receive_content_from_fd env tokens key e si (p : Pager) :
  heap p !! ep_info e = Some si →
  heap_all Q p →
  heap_all Q (state_of (receive_content_from_fd env tokens key e si p)).
Proof.
  intros Hsi Hp. unfold receive_content_from_fd.
  destruct (read_into _ _ _ _) as [[si' n]|] eqn:E; [|done].
  assert (Q si') by eauto. assert (Q (set_waiting false si')) by eauto.
  destruct (bool_decide _ || eof _ _); [destruct (ep_fd (set_lines n e))|];
    heap_all_lookup.
Qed.

Lemma heap_all_receive_content_from_generator env tokens i e si (p : Pager) :
  heap p !! ep_info e = Some si →
  heap_all Q p →
  heap_all Q (state_of (receive_content_from_generator env tokens i e si p)).
Proof.
  intros Hsi Hp. unfold receive_content_from_generator.
  destruct (bool_decide _ && negb _).
  - destruct (read_into _ _ _ _) as [[si' n]|] eqn:E; [|done].
    assert (Q si') by eauto. heap_all_lookup.
  - assert (Q (set_waiting false si)) by eauto. heap_all_lookup.
Qed.

Lemma heap_all_step (p : Pager) ev (p' : Pager) :
  step p ev p' → heap_all Q p → heap_all Q p'.
Proof.
  intros Hstep Hp. destruct Hstep;
    eauto using heap_all_add_source, heap_all_remove_current_source,
      heap_all_focus_previous_source, heap_all_focus_next_source,
      heap_all_open_file, heap_all_display_help, heap_all_quit_help,
      heap_all_on_render, heap_all_receive_content_from_fd,
      heap_all_receive_content_from_generator.
Qed.

Lemma heap_all_reachable (p : Pager) : reachable p → heap_all Q p.
Proof.
  induction 1 as [|p ev p' _ IH Hstep].
  - intros a si. simpl. by rewrite lookup_empty.
  - by eapply heap_all_step.
Qed.

End HeapAll.

(** ** Registry methods leave the prefetch alone *)

Lemma calm_refl (p : Pager) : calm p p.
Proof. repeat split; auto. Qed.

Lemma calm_trans (p1 p2 p3 : Pager) : calm p1 p2 → calm p2 p3 → calm p1 p3.
Proof.
  intros (Hr1 & Ht1 & Hn1 & Hh1) (Hr2 & Ht2 & Hn2 & Hh2).
  split; [congruence|]. split; [congruence|]. split; [lia|].
  intros a. destruct (Hh2 a) as [->|([? ?] & s & Hs)].
  - destruct (Hh1 a) as [->|([? ?] & s & Hs)]; [by left|].
    right. split; [lia|]. eauto.
  - right. split; [lia|]. eauto.
Qed.

(** A change of attributes other than the heap, the counter, the readers and
    the threads. *)
Lemma calm_attrs (p p' : Pager) :
  readers p' = readers p → threads p' = threads p →
  next_id p' = next_id p → heap p' = heap p → calm p p'.
Proof.
  intros Hr Ht Hn Hh. repeat split; auto; [lia|]. intros a. left. by rewrite Hh.
Qed.

Lemma calm_bump (p : Pager) : calm p (set_next_id (S (next_id p)) p).
Proof. repeat split; simpl; auto. Qed.

Lemma calm_alloc (s : Source) (p : Pager) :
  calm p (set_next_id (S (next_id p))
            (set_heap (<[next_id p := _SourceInfo_init s]> (heap p)) p)).
Proof.
  repeat split; simpl; auto. intros a.
  destruct (decide (a = next_id p)) as [->|Hne].
  - right. split; [lia|]. exists s. by rewrite lookup_insert_eq.
  - left. by rewrite lookup_insert_ne.
Qed.

Lemma calm_current_source_info (p : Pager) : calm p (current_source_info p).1.
Proof.
  unfold current_source_info.
  destruct (source_info p !! oid (current_source p)).
  - apply calm_refl.
  - apply calm_alloc.
Qed.

Lemma calm_add_source (s : Source) (p : Pager) : calm p (add_source s p).
Proof.
  eapply calm_trans; [apply (calm_alloc s)|]. by apply calm_attrs.
Qed.

Lemma calm_focus_previous_source (p : Pager) :
  calm p (state_of (focus_previous_source p)).
Proof.
  unfold focus_previous_source. case_decide; [apply calm_refl|].
  match goal with |- context [current_source_info ?q] =>
    pose proof (calm_current_source_info q) as Hq;
    destruct (current_source_info q) as [p1 a1] end.
  simpl in *. eapply calm_trans; [|eapply calm_trans; [apply Hq|]];
    by apply calm_attrs.
Qed.

Lemma calm_focus_next_source (p : Pager) :
  calm p (state_of (focus_next_source p)).
Proof.
  unfold focus_next_source. case_decide; [apply calm_refl|].
  match goal with |- context [current_source_info ?q] =>
    pose proof (calm_current_source_info q) as Hq;
    destruct (current_source_info q) as [p1 a1] end.
  simpl in *. eapply calm_trans; [|eapply calm_trans; [apply Hq|]];
    by apply calm_attrs.
Qed.

Lemma calm_remove_current_source (p : Pager) :
  calm p (state_of (remove_current_source p)).
Proof.
  unfold remove_current_source. case_decide; [|by apply calm_attrs].
  pose proof (calm_focus_previous_source p) as Hq.
  destruct (focus_previous_source p) as [p1|e p1]; simpl in *; [|done].
  destruct (py_remove _ _); simpl; [|done].
  eapply calm_trans; [apply Hq|]. by apply calm_attrs.
Qed.

Lemma calm_quit_help (p : Pager) : calm p (state_of (quit_help p)).
Proof.
  unfold quit_help. destruct (displaying_help p); [|apply calm_refl].
  pose proof (calm_remove_current_source p) as Hq.
  destruct (remove_current_source p) as [p1|e p1]; simpl in *; [|done].
  eapply calm_trans; [apply Hq|]. by apply calm_attrs.
Qed.

Lemma calm_open_file ctor filename (p : Pager) :
  calm p (state_of (open_file ctor filename p)).
Proof.
  unfold open_file.
  destruct (ctor filename) as [[]|]; try apply calm_refl.
  - by apply calm_attrs.
  - simpl. eapply calm_trans; [apply calm_bump|apply calm_add_source].
Qed.

Lemma calm_display_help HELP (p : Pager) : calm p (display_help HELP p).
Proof.
  unfold display_help. destruct (displaying_help p); [apply calm_refl|].
  eapply calm_trans; [apply calm_bump|].
  eapply calm_trans; [apply calm_add_source|]. by apply calm_attrs.
Qed.

(** ** Counting the episodes on an object *)

Lemma on_app (a : nat) (l1 l2 : list Episode) :
  on a (l1 ++ l2) = on a l1 + on a l2.
Proof. unfold on. by rewrite filter_app, length_app. Qed.

Lemma on_cons (a : nat) (e : Episode) (l : list Episode) :
  on a (e :: l) = (if decide (ep_info e = a) then 1 else 0) + on a l.
Proof. unfold on. rewrite filter_cons. by case_decide. Qed.

Lemma on_nil (a : nat) : on a [] = 0.
Proof. done. Qed.

Lemma remove_reader_cons (fd : Z) (r : Z * Episode) (rs : list (Z * Episode)) :
  remove_reader fd (r :: rs)
  = if decide (r.1 = fd) then remove_reader fd rs else r :: remove_reader fd rs.
Proof.
  unfold remove_reader. rewrite filter_cons.
  destruct (decide (r.1 = fd)) as [Heq|Hne].
  - by rewrite decide_False by (intros H; by apply H).
  - by rewrite decide_True.
Qed.

Lemma on_remove_reader_le (a : nat) (fd : Z) (rs : list (Z * Episode)) :
  on a (snd <$> remove_reader fd rs) ≤ on a (snd <$> rs).
Proof.
  induction rs as [|r rs IH]; [done|].
  rewrite remove_reader_cons, fmap_cons, on_cons.
  case_decide; rewrite ?fmap_cons, ?on_cons; lia.
Qed.

Lemma on_remove_reader_lt (key : Z) (e : Episode) (rs : list (Z * Episode)) :
  reader_of key rs = Some e →
  on (ep_info e) (snd <$> remove_reader key rs) < on (ep_info e) (snd <$> rs).
Proof.
  induction rs as [|r rs IH]; [done|]. cbn [reader_of].
  rewrite remove_reader_cons, fmap_cons, on_cons.
  destruct (decide (r.1 = key)) as [Heq|Hne].
  - intros [= <-]. rewrite decide_True by done.
    pose proof (on_remove_reader_le (ep_info r.2) key rs). lia.
  - intros He. rewrite fmap_cons, on_cons. specialize (IH He). lia.
Qed.

Lemma elem_of_remove_reader (fd k : Z) (e : Episode) (rs : list (Z * Episode)) :
  (k, e) ∈ remove_reader fd rs → (k, e) ∈ rs.
Proof. unfold remove_reader. rewrite list_elem_of_filter. by intros [_ ?]. Qed.

Lemma on_update_reader (a : nat) (key : Z) (e e' : Episode)
    (rs : list (Z * Episode)) :
  reader_of key rs = Some e → ep_info e' = ep_info e →
  on a (snd <$> update_reader key e' rs) = on a (snd <$> rs).
Proof.
  intros Hr Hi. induction rs as [|r rs IH]; [done|].
  cbn [reader_of update_reader] in *.
  destruct (decide (r.1 = key)) as [Heq|Hne].
  - injection Hr as <-. rewrite !fmap_cons, !on_cons. cbn [snd]. by rewrite Hi.
  - rewrite !fmap_cons, !on_cons. by rewrite IH.
Qed.

Lemma elem_of_update_reader (key k : Z) (e' e : Episode)
    (rs : list (Z * Episode)) :
  (k, e) ∈ update_reader key e' rs → (k, e) ∈ rs ∨ (k = key ∧ e = e').
Proof.
  induction rs as [|r rs IH]; cbn [update_reader]; [by left|].
  case_decide.
  - rewrite !elem_of_cons. intros [[= -> ->]|?]; auto.
  - rewrite !elem_of_cons. intros [?|?]; [auto|]. destruct IH; auto.
Qed.

Lemma reader_of_elem_of (key : Z) (e : Episode) (rs : list (Z * Episode)) :
  reader_of key rs = Some e → (key, e) ∈ rs.
Proof.
  induction rs as [|[k e0] rs IH]; [done|]. cbn [reader_of fst snd].
  case_decide; simplify_eq.
  - intros [= ->]. apply elem_of_cons. by left.
  - intros ?. apply elem_of_cons. right. auto.
Qed.

Lemma on_insert_same (a : nat) (i : nat) (e e' : Episode) (l : list Episode) :
  l !! i = Some e → ep_info e' = ep_info e →
  on a (<[i:=e']> l) = on a l.
Proof.
  revert i. induction l as [|e0 l IH]; intros [|i]; csimpl; try done.
  - intros [= ->] Hi. by rewrite !on_cons, Hi.
  - intros Hl Hi. by rewrite !on_cons, IH.
Qed.

Lemma on_delete_le (a : nat) (i : nat) (l : list Episode) :
  on a (delete i l) ≤ on a l.
Proof.
  revert i. induction l as [|e0 l IH]; intros [|i]; csimpl; try done.
  - rewrite on_cons. lia.
  - rewrite !on_cons. specialize (IH i). lia.
Qed.

Lemma on_delete_lt (i : nat) (e : Episode) (l : list Episode) :
  l !! i = Some e → on (ep_info e) (delete i l) < on (ep_info e) l.
Proof.
  revert i. induction l as [|e0 l IH]; intros [|i]; csimpl; try done.
  - intros [= ->]. rewrite on_cons, decide_True by done. lia.
  - intros Hl. rewrite !on_cons. specialize (IH i Hl). lia.
Qed.

Lemma active_on_eq (a : nat) (p : Pager) :
  active_on a p = on a (snd <$> readers p) + on a (threads p).
Proof. unfold active_on, episodes. apply on_app. Qed.

(** ** The invariant of the prefetch *)

Lemma prefetch_inv_init : prefetch_inv Pager_init.
Proof.
  split; [|split]; simpl.
  - intros a [si Hsi]. by rewrite lookup_empty in Hsi.
  - intros k e Hin. by apply elem_of_nil in Hin.
  - intros a. unfold active_on, flagged. simpl. by rewrite lookup_empty.
Qed.

Lemma prefetch_inv_calm (p p' : Pager) :
  calm p p' → prefetch_inv p → prefetch_inv p'.
Proof.
  intros (Hr & Ht & Hn & Hh) (I1 & I4 & I2). split; [|split].
  - intros a Hs. destruct (Hh a) as [Heq|[[? ?] _]]; [|lia].
    rewrite Heq in Hs. apply I1 in Hs. lia.
  - by rewrite Hr.
  - intros a.
    assert (active_on a p' = active_on a p) as ->.
    { unfold active_on, episodes. by rewrite Hr, Ht. }
    destruct (Hh a) as [Heq|[[? ?] [s Hs]]].
    + unfold flagged. rewrite Heq. apply I2.
    + specialize (I2 a). unfold flagged in *. rewrite Hs. simpl.
      destruct (heap p !! a) eqn:E; [|done].
      assert (a < next_id p) by (apply I1; eauto). lia.
Qed.

Lemma flagged_calm (p p' : Pager) (a : nat) :
  calm p p' → prefetch_inv p → flagged a p = true → flagged a p' = true.
Proof.
  intros (_ & _ & _ & Hh) (I1 & _ & _). unfold flagged.
  destruct (heap p !! a) eqn:E; [|done]. intros Hw.
  assert (a < next_id p) by (apply I1; eauto).
  destruct (Hh a) as [->|[[? ?] _]]; [|lia]. by rewrite E.
Qed.

Lemma flagged_insert (p p' : Pager) (a a' : nat) (si : _SourceInfo) :
  heap p' = <[a:=si]> (heap p) →
  flagged a' p' = if decide (a' = a) then waiting_for_input_stream si
                  else flagged a' p.
Proof.
  intros Hh. unfold flagged. rewrite Hh. case_decide as Ha.
  - subst. by rewrite lookup_insert_eq.
  - by rewrite lookup_insert_ne.
Qed.

(** A change of one object and of the episodes that keeps the invariant. *)
Lemma prefetch_inv_update (p p' : Pager) (a : nat) (si : _SourceInfo) :
  prefetch_inv p →
  is_Some (heap p !! a) →
  heap p' = <[a:=si]> (heap p) →
  next_id p' = next_id p →
  (∀ k e, (k, e) ∈ readers p' → ep_fd e = Some k) →
  (∀ a', a' ≠ a → active_on a' p' ≤ active_on a' p) →
  active_on a p' ≤ (if waiting_for_input_stream si then 1 else 0) →
  prefetch_inv p'.
Proof.
  intros (I1 & I4 & I2) Ha Hh Hn Hr Hle Hat. split; [|split]; [|done|].
  - intros a' Hs. rewrite Hn. rewrite Hh in Hs.
    destruct (decide (a' = a)) as [->|Hne]; [by apply I1|].
    rewrite lookup_insert_ne in Hs by done. by apply I1.
  - intros a'. rewrite (flagged_insert p p' a a' si Hh).
    case_decide as Hd; [by subst|].
    specialize (Hle a' Hd). specialize (I2 a'). lia.
Qed.

Lemma handle_content_lines (tokens : list token_char) :
  ∀ lt n lt' n' data,
    handle_content lt n tokens = Some (lt', n', data) →
    n' = (n - Z.of_nat (terminators tokens))%Z.
Proof.
  induction tokens as [|tc tokens IH]; intros lt n lt' n' data; simpl.
  - intros [= _ <- _]. unfold terminators. simpl. lia.
  - unfold terminators. rewrite filter_cons.
    destruct (decide (tc.2 = newline)).
    + destruct (handle_content _ _ tokens) as [[[? ?] ?]|] eqn:E; [|done].
      intros [= _ <- _]. apply IH in E. unfold terminators in E. simpl. lia.
    + destruct (append_to_last _ _); [|done].
      destruct (handle_content _ _ tokens) as [[[? ?] ?]|] eqn:E; [|done].
      intros [= _ <- _]. by apply IH in E.
Qed.

Lemma read_into_Some (ff : bool) (tokens : list token_char) (n n' : Z)
    (si si' : _SourceInfo) :
  read_into ff tokens n si = Some (si', n') →
  waiting_for_input_stream si' = waiting_for_input_stream si ∧
  n' = (n - Z.of_nat (terminators tokens))%Z.
Proof.
  unfold read_into.
  destruct (handle_content _ _ _) as [[[lt m] data]|] eqn:E; [|done].
  intros [= <- <-]. split; [done|]. by apply handle_content_lines in E.
Qed.

Ltac pager_simpl :=
  cbn [sources current_source_index in_colon_mode message displaying_help
       forward_forever source_info heap next_id layout_focus readers threads
       invalidations set_sources set_current_source_index set_in_colon_mode
       set_message set_displaying_help set_forward_forever set_source_info
       set_heap set_next_id set_layout_focus set_readers set_threads
       invalidate state_of waiting_for_input_stream set_waiting set_content
       ep_info ep_fd ep_lines ep_source set_lines fst snd] in *.

Lemma prefetch_inv_on_render env (p : Pager) :
  prefetch_inv p → prefetch_inv (state_of (_on_render env p)).
Proof.
  intros Hinv. pose proof Hinv as (I1 & I4 & I2). unfold _on_render.
  destruct (lookup_info p (current_source p)) as [[a si]|] eqn:E; [|done].
  apply lookup_info_Some in E as [_ Hsi].
  destruct (waiting_for_input_stream si) eqn:Hw; [done|].
  destruct (eof env (current_source p)); [done|]. cbn [negb andb].
  destruct (get_render_info env) as [info|]; [|done].
  destruct (bool_decide _ || forward_forever p); [|done].
  assert (active_on a p = 0) as Hz.
  { specialize (I2 a). unfold flagged in I2. rewrite Hsi, Hw in I2. lia. }
  rewrite active_on_eq in Hz.
  destruct (get_fd (current_source p)) as [fd|] eqn:Hfd; pager_simpl.
  - apply (prefetch_inv_update p _ a (set_waiting true si)); pager_simpl;
      [done|eauto|done|done|..].
    + intros k e. unfold add_reader. rewrite elem_of_cons.
      intros [[= -> ->]|Hin]; [done|].
      apply elem_of_remove_reader in Hin. by apply I4.
    + intros a' Hne. rewrite !active_on_eq. pager_simpl.
      unfold add_reader. rewrite fmap_cons, on_cons. pager_simpl.
      rewrite decide_False by done.
      pose proof (on_remove_reader_le a' fd (readers p)). lia.
    + rewrite active_on_eq. pager_simpl.
      unfold add_reader. rewrite fmap_cons, on_cons. pager_simpl.
      pose proof (on_remove_reader_le a fd (readers p)).
      case_decide; lia.
  - apply (prefetch_inv_update p _ a (set_waiting true si)); pager_simpl;
      [done|eauto|done|done|done|..].
    + intros a' Hne. rewrite !active_on_eq. pager_simpl.
      rewrite on_app, on_cons, on_nil. pager_simpl.
      rewrite decide_False by done. lia.
    + rewrite active_on_eq. pager_simpl. rewrite on_app, on_cons, on_nil.
      case_decide; lia.
Qed.

Lemma reader_of_update_reader (key : Z) (e e' : Episode) (rs : list (Z * Episode)) :
  reader_of key rs = Some e → reader_of key (update_reader key e' rs) = Some e'.
Proof.
  induction rs as [|r rs IH]; [done|]. cbn [reader_of update_reader].
  destruct (decide (r.1 = key)) as [Heq|Hne]; cbn [reader_of fst snd].
  - intros _. by rewrite decide_True.
  - intros He. rewrite decide_False by done. auto.
Qed.

Lemma prefetch_inv_receive_content_from_fd env tokens key e si (p : Pager) :
  reader_of key (readers p) = Some e →
  heap p !! ep_info e = Some si →
  prefetch_inv p →
  prefetch_inv (state_of (receive_content_from_fd env tokens key e si p)).
Proof.
  intros Hr Hsi Hinv. pose proof Hinv as (I1 & I4 & I2).
  unfold receive_content_from_fd.
  destruct (read_into _ _ _ _) as [[si' n]|] eqn:E; [|done].
  apply read_into_Some in E as [Hw _].
  assert (ep_fd e = Some key) as Hfd by (by apply I4, reader_of_elem_of).
  assert (∀ k e0, (k, e0) ∈ update_reader key (set_lines n e) (readers p) →
                  ep_fd e0 = Some k) as I4'.
  { intros k e0 [Hin|[-> ->]]%elem_of_update_reader; [by apply I4|done]. }
  assert (∀ a', on a' (snd <$> update_reader key (set_lines n e) (readers p))
                = on a' (snd <$> readers p)) as Hup.
  { intros a'. by apply (on_update_reader a' key e). }
  pose proof (I2 (ep_info e)) as I2e. unfold flagged in I2e.
  rewrite Hsi, active_on_eq in I2e.
  destruct (bool_decide _ || eof _ _); pager_simpl.
  - rewrite Hfd. pager_simpl. rewrite insert_insert_eq.
    apply (prefetch_inv_update p _ (ep_info e) (set_waiting false si'));
      pager_simpl; [done|eauto|done|done|..].
    + intros k e0 Hin%elem_of_remove_reader. by apply I4'.
    + intros a' Hne. rewrite !active_on_eq. pager_simpl.
      pose proof (on_remove_reader_le a' key
        (update_reader key (set_lines n e) (readers p))) as Hle.
      rewrite Hup in Hle. lia.
    + rewrite active_on_eq. pager_simpl.
      pose proof (on_remove_reader_lt key (set_lines n e)
        (update_reader key (set_lines n e) (readers p))
        (reader_of_update_reader key e _ _ Hr)) as Hlt.
      pager_simpl. rewrite Hup in Hlt.
      destruct (waiting_for_input_stream si); lia.
  - apply (prefetch_inv_update p _ (ep_info e) si');
      pager_simpl; [done|eauto|done|done|done|..].
    + intros a' Hne. rewrite !active_on_eq. pager_simpl. rewrite Hup. lia.
    + rewrite active_on_eq. pager_simpl. rewrite Hup, Hw. lia.
Qed.

Lemma prefetch_inv_receive_content_from_generator env tokens i e si (p : Pager) :
  threads p !! i = Some e →
  heap p !! ep_info e = Some si →
  prefetch_inv p →
  prefetch_inv (state_of (receive_content_from_generator env tokens i e si p)).
Proof.
  intros Hi Hsi Hinv. pose proof Hinv as (I1 & I4 & I2).
  unfold receive_content_from_generator.
  pose proof (I2 (ep_info e)) as I2e. unfold flagged in I2e.
  rewrite Hsi, active_on_eq in I2e.
  destruct (bool_decide _ && negb _).
  - destruct (read_into _ _ _ _) as [[si' n]|] eqn:E; pager_simpl.
    + apply read_into_Some in E as [Hw _].
      apply (prefetch_inv_update p _ (ep_info e) si');
        pager_simpl; [done|eauto|done|done|done|..].
      * intros a' Hne. rewrite !active_on_eq. pager_simpl.
        rewrite (on_insert_same a' i e) by done. lia.
      * rewrite active_on_eq. pager_simpl.
        rewrite (on_insert_same _ i e) by done. rewrite Hw. lia.
    + apply (prefetch_inv_update p _ (ep_info e) si);
        pager_simpl; [done|eauto|by rewrite insert_id|done|done|..].
      * intros a' Hne. rewrite !active_on_eq. pager_simpl.
        pose proof (on_delete_le a' i (threads p)). lia.
      * rewrite active_on_eq. pager_simpl.
        pose proof (on_delete_le (ep_info e) i (threads p)). lia.
  - pager_simpl.
    apply (prefetch_inv_update p _ (ep_info e) (set_waiting false si));
      pager_simpl; [done|eauto|done|done|done|..].
    + intros a' Hne. rewrite !active_on_eq. pager_simpl.
      pose proof (on_delete_le a' i (threads p)). lia.
    + rewrite active_on_eq. pager_simpl.
      pose proof (on_delete_lt i e (threads p) Hi).
      destruct (waiting_for_input_stream si); lia.
Qed.

Lemma step_calm (p : Pager) (ev : event) (p' : Pager) :
  step p ev p' →
  match ev with
  | ev_render _ | ev_fd_ready _ _ _ | ev_worker_turn _ _ _ => True
  | _ => calm p p'
  end.
Proof.
  destruct 1; try done;
    eauto using calm_add_source, calm_remove_current_source,
      calm_focus_previous_source, calm_focus_next_source, calm_open_file,
      calm_display_help, calm_quit_help;
    by apply calm_attrs.
Qed.

Lemma prefetch_inv_step (p : Pager) (ev : event) (p' : Pager) :
  step p ev p' → prefetch_inv p → prefetch_inv p'.
Proof.
  intros Hstep Hinv. pose proof (step_calm p ev p' Hstep) as Hc.
  destruct Hstep; try (by eapply prefetch_inv_calm).
  - by apply prefetch_inv_on_render.
  - by apply prefetch_inv_receive_content_from_fd.
  - by apply prefetch_inv_receive_content_from_generator.
Qed.

Lemma prefetch_inv_reachable (p : Pager) : reachable p → prefetch_inv p.
Proof.
  induction 1 as [|p ev p' _ IH Hstep]; [apply prefetch_inv_init|].
  by eapply prefetch_inv_step.
Qed.


(** ** The flag is cleared only where an episode ends *)

Lemma flag_cleared_on_render env (p : Pager) (a : nat) :
  flagged a p = true → flagged a (state_of (_on_render env p)) = true.
Proof.
  intros Hf. unfold _on_render.
  destruct (lookup_info p (current_source p)) as [[a0 si]|] eqn:E; [|done].
  destruct (negb _ && negb _); [|done].
  destruct (get_render_info env) as [info|]; [|done].
  destruct (bool_decide _ || forward_forever p); [|done].
  destruct (get_fd (current_source p));
    (rewrite (flagged_insert p _ a0 a (set_waiting true si)) by done);
    by case_decide.
Qed.

Lemma heap_receive_content_from_fd env tokens key e si si' n (p : Pager) :
  read_into (forward_forever p) tokens (ep_lines e) si = Some (si', n) →
  heap (state_of (receive_content_from_fd env tokens key e si p))
  = <[ep_info e :=
        if bool_decide (n ≤ 0)%Z || eof env (ep_source e)
        then set_waiting false si' else si']> (heap p).
Proof.
  intros E. unfold receive_content_from_fd. rewrite E. pager_simpl.
  destruct (bool_decide _ || eof _ _); pager_simpl; [|done].
  destruct (ep_fd e); pager_simpl; by rewrite insert_insert_eq.
Qed.

Lemma flag_cleared_receive_content_from_fd env tokens key e si (p : Pager) (a : nat) :
  reader_of key (readers p) = Some e →
  heap p !! ep_info e = Some si →
  flagged a p = true →
  flagged a (state_of (receive_content_from_fd env tokens key e si p)) = false →
  episode_ends p (ev_fd_ready env tokens key) a.
Proof.
  intros Hr Hsi Hf.
  destruct (read_into (forward_forever p) tokens (ep_lines e) si)
    as [[si' n]|] eqn:E.
  - rewrite (flagged_insert p _ (ep_info e) a _
               (heap_receive_content_from_fd env tokens key e si si' n p E)).
    apply read_into_Some in E as [Hw ->].
    destruct (decide (a = ep_info e)) as [->|Ha]; [|intros; congruence].
    destruct (bool_decide _ || eof _ _) eqn:Hc.
    + intros _. exists e. split; [done|]. split; [done|].
      apply orb_true_iff in Hc as [Hc|Hc]; [left|by right].
      by apply bool_decide_eq_true in Hc.
    + unfold flagged in Hf. rewrite Hsi in Hf. congruence.
  - unfold receive_content_from_fd. rewrite E. simpl. congruence.
Qed.

Lemma flag_cleared_receive_content_from_generator env tokens i e si
    (p : Pager) (a : nat) :
  threads p !! i = Some e →
  heap p !! ep_info e = Some si →
  flagged a p = true →
  flagged a (state_of (receive_content_from_generator env tokens i e si p)) = false →
  episode_ends p (ev_worker_turn env tokens i) a.
Proof.
  intros Hi Hsi Hf. unfold receive_content_from_generator.
  destruct (bool_decide _ && negb _) eqn:Hc.
  - destruct (read_into _ _ _ _) as [[si' n]|] eqn:E; pager_simpl.
    + apply read_into_Some in E as [Hw _].
      rewrite (flagged_insert p _ (ep_info e) a si') by done.
      destruct (decide (a = ep_info e)) as [->|Ha]; [|intros; congruence].
      unfold flagged in Hf. rewrite Hsi in Hf. congruence.
    + unfold flagged in *. pager_simpl. congruence.
  - pager_simpl.
    rewrite (flagged_insert p _ (ep_info e) a (set_waiting false si)) by done.
    destruct (decide (a = ep_info e)) as [->|Ha]; [|intros; congruence]. intros _.
    exists e. split; [done|]. split; [done|].
    apply andb_false_iff in Hc as [Hc|Hc].
    + left. apply bool_decide_eq_false in Hc. lia.
    + right. by destruct (eof env (ep_source e)).
Qed.

Lemma flag_cleared_step (p : Pager) (ev : event) (p' : Pager) (a : nat) :
  step p ev p' → prefetch_inv p →
  flagged a p = true → flagged a p' = false → episode_ends p ev a.
Proof.
  intros Hstep Hinv Hf Hf'. pose proof (step_calm p ev p' Hstep) as Hc.
  destruct Hstep;
    try (apply (flagged_calm _ _ a) in Hc; [congruence|done|done]).
  - apply (flag_cleared_on_render env) in Hf. congruence.
  - by eapply flag_cleared_receive_content_from_fd.
  - by eapply flag_cleared_receive_content_from_generator.
Qed.

(** * The claims *)

(** ** C1: text and lines stay equivalent *)

Lemma text_lines_equiv_read (ff : bool) (tokens : list token_char) (n n' : Z)
    (si si' : _SourceInfo) :
  text_lines_equiv si → read_into ff tokens n si = Some (si', n') →
  text_lines_equiv si'.
Proof.
  intros Hq Hr. destruct (read_into_equiv ff tokens n si Hq) as (si2 & Hr2 & Hq2 & _).
  rewrite Hr in Hr2. by injection Hr2 as -> _.
Qed.

(** C1. Every [_SourceInfo] of a reachable pager satisfies the text/lines
    equivalence: the lines joined again with a newline between consecutive
    lines, the open last line included, are the text of the buffer, and no
    terminator is stored in a line.  Processing a chunk through
    [handle_content] and [insert_text] never fails on such an object, keeps
    the equivalence, appends exactly the characters of the chunk,
    terminators included, to the text, and, when the chunk holds single
    characters, leaves the lines free of the newline character. *)
Theorem text_lines_equivalence :
  (∀ p a si, reachable p → heap p !! a = Some si → text_lines_equiv si) ∧
  (∀ ff tokens n si,
     text_lines_equiv si →
     ∃ si',
       read_into ff tokens n si
       = Some (si', (n - Z.of_nat (terminators tokens))%Z) ∧
       text_lines_equiv si' ∧
       text (buffer si') = text (buffer si) +:+ py_join (snd <$> tokens) ∧
       (Forall one_char tokens → newline_free (line_tokens si) →
        newline_free (line_tokens si'))).
Proof.
  split.
  - intros p a si Hreach Hsi.
    eapply (heap_all_reachable text_lines_equiv); eauto using
      text_lines_equiv_init, text_lines_equiv_set_waiting, text_lines_equiv_read.
  - intros. by apply read_into_equiv.
Qed.

Lemma text_lines_equivalence_witness :
  text_lines_equiv (_SourceInfo_init sample_pipe) ∧
  ∃ si', read_into false [([], "a"); ([], newline)] 15
           (_SourceInfo_init sample_pipe) = Some (si', 14%Z) ∧
         text_lines_equiv si'.
Proof.
  assert (reachable (add_source sample_pipe Pager_init)) as Hreach.
  { eapply reachable_step; [apply reachable_init|apply step_add_source]. }
  pose proof (proj1 text_lines_equivalence (add_source sample_pipe Pager_init)
                1 (_SourceInfo_init sample_pipe) Hreach eq_refl) as Hq.
  split; [exact Hq|].
  destruct (proj2 text_lines_equivalence false [([], "a"); ([], newline)] 15%Z
              (_SourceInfo_init sample_pipe) Hq) as (si' & Hr & Hq' & _).
  exists si'. split; [exact Hr|exact Hq'].
Defined.

(** ** C2: at most one prefetch episode per object *)

(** C2. In every reachable state, every [_SourceInfo] has at most one
    prefetch episode in progress, and an episode is in progress only while
    [waiting_for_input_stream] is set: the flag is set before any read.
    While the flag of the focused source is set, [_on_render] returns with
    the pager unchanged: no reader registered, no worker started, no chunk
    appended.  And an event that clears the flag is the end of the episode
    of that object, by a satisfied deficit or by eof, after which no episode
    is left on it. *)
Theorem at_most_one_prefetch_episode (p : Pager) :
  reachable p →
  (∀ a, active_on a p ≤ 1) ∧
  (∀ a, 0 < active_on a p → flagged a p = true) ∧
  (∀ env a si,
     lookup_info p (current_source p) = Some (a, si) →
     waiting_for_input_stream si = true →
     _on_render env p = Return p) ∧
  (∀ ev p' a,
     step p ev p' → flagged a p = true → flagged a p' = false →
     episode_ends p ev a ∧ active_on a p' = 0).
Proof.
  intros Hreach. pose proof (prefetch_inv_reachable p Hreach) as Hinv.
  pose proof Hinv as (_ & _ & I2). repeat split.
  - intros a. specialize (I2 a). destruct (flagged a p); lia.
  - intros a Ha. specialize (I2 a). destruct (flagged a p); [done|lia].
  - intros env a si Hl Hw. unfold _on_render. by rewrite Hl, Hw.
  - by eapply flag_cleared_step.
  - pose proof (prefetch_inv_step p ev p' H Hinv) as (_ & _ & I2').
    specialize (I2' a). rewrite H1 in I2'. lia.
Qed.

Lemma at_most_one_prefetch_episode_witness :
  reachable (state_of (_on_render (sample_env 5)
                         (add_source sample_pipe Pager_init))) ∧
  active_on 1 (state_of (_on_render (sample_env 5)
                           (add_source sample_pipe Pager_init))) ≤ 1.
Proof.
  assert (reachable (state_of (_on_render (sample_env 5)
                                 (add_source sample_pipe Pager_init)))) as Hr.
  { eapply reachable_step; [|apply step_render].
    eapply reachable_step; [apply reachable_init|apply step_add_source]. }
  split; [exact Hr|].
  exact (proj1 (at_most_one_prefetch_episode _ Hr) 1).
Defined.

(** ** C3: when a render cycle starts a prefetch, and for how many lines *)

Lemma on_render_idle env (p : Pager) a si info :
  idle_not_eof env p a si →
  get_render_info env = Some info →
  _on_render env p =
    if bool_decide (lines_below_bottom info < window_height info * 2)%Z
       || forward_forever p
    then
      let e := {| ep_source := current_source p; ep_info := a;
                  ep_lines := (window_height info * 2 - lines_below_bottom info)%Z;
                  ep_fd := get_fd (current_source p) |} in
      let p1 := invalidate (set_heap (<[a := set_waiting true si]> (heap p)) p) in
      match get_fd (current_source p) with
      | Some fd => Return (set_readers (add_reader fd e (readers p1)) p1)
      | None => Return (set_threads (threads p1 ++ [e]) p1)
      end
    else Return p.
Proof.
  intros (Hl & Hw & He) Hi. unfold _on_render, lines_below_bottom.
  by rewrite Hl, Hw, He, Hi.
Qed.

Lemma on_render_starts env (p : Pager) a si info :
  idle_not_eof env p a si →
  get_render_info env = Some info →
  (lines_below_bottom info < window_height info * 2)%Z
  ∨ forward_forever p = true →
  ∃ p' e,
    _on_render env p = Return p' ∧
    flagged a p' = true ∧
    prefetch_started p p' e ∧
    ep_info e = a ∧
    ep_source e = current_source p ∧
    ep_lines e = (window_height info * 2 - lines_below_bottom info)%Z.
Proof.
  intros Hidle Hi Hc. rewrite (on_render_idle env p a si info Hidle Hi).
  assert (bool_decide (lines_below_bottom info < window_height info * 2)%Z
          || forward_forever p = true) as ->.
  { destruct Hc as [Hc| ->]; [|by rewrite orb_true_r].
    by rewrite bool_decide_eq_true_2. }
  cbn zeta. unfold prefetch_started.
  assert (∀ q, heap q = <[a:=set_waiting true si]> (heap p) →
               flagged a q = true) as Hflag.
  { intros q Hq. unfold flagged. by rewrite Hq, lookup_insert_eq. }
  destruct (get_fd (current_source p)) as [fd|] eqn:Hfd.
  - eexists _, {| ep_source := current_source p; ep_info := a;
                  ep_lines := (window_height info * 2 - lines_below_bottom info)%Z;
                  ep_fd := Some fd |}.
    split; [reflexivity|]. pager_simpl. split; [by apply Hflag|]. done.
  - eexists _, {| ep_source := current_source p; ep_info := a;
                  ep_lines := (window_height info * 2 - lines_below_bottom info)%Z;
                  ep_fd := None |}.
    split; [reflexivity|]. pager_simpl. split; [by apply Hflag|]. done.
Qed.


Lemma sample_idle (below : Z) (s : Source) :
  kind s ≠ DummySource →
  idle_not_eof (sample_env below) (add_source s Pager_init) 1
    (_SourceInfo_init s).
Proof.
  intros Hk. repeat split.
  - unfold lookup_info, current_source. simpl.
    by rewrite !lookup_insert_eq.
  - unfold eof, current_source. simpl. by destruct (kind s).
Qed.



(** ** Python lists *)

Lemma py_getitem_nonneg {A} (l : list A) (i : Z) :
  (0 ≤ i)%Z → py_getitem l i = l !! Z.to_nat i.
Proof. intros Hi. unfold py_getitem. by rewrite decide_True. Qed.

Lemma py_getitem_valid {A} (l : list A) (i : Z) :
  (0 ≤ i < Z.of_nat (length l))%Z → is_Some (py_getitem l i).
Proof.
  intros Hi. rewrite py_getitem_nonneg by lia.
  apply lookup_lt_is_Some. lia.
Qed.

Lemma py_getitem_empty {A} (i : Z) : py_getitem ([] : list A) i = None.
Proof.
  unfold py_getitem. case_decide; [done|]. case_decide; [|done].
  simpl in *. lia.
Qed.

Lemma py_getitem_last {A} (l : list A) (x : A) :
  py_getitem (l ++ [x]) (Z.of_nat (length l)) = Some x.
Proof.
  rewrite py_getitem_nonneg by lia. rewrite Nat2Z.id.
  by rewrite lookup_app_r, Nat.sub_diag.
Qed.

Lemma py_remove_length (x : Source) (l r : list Source) :
  py_remove x l = Some r → length l = S (length r).
Proof.
  revert r. induction l as [|y l IH]; intros r; simpl; [done|].
  case_decide; [by intros [= ->]|].
  destruct (py_remove x l) as [r'|]; [|done].
  intros [= <-]. simpl. by rewrite (IH r').
Qed.

Lemma py_remove_lookup (x : Source) (l : list Source) (i : nat) :
  l !! i = Some x → is_Some (py_remove x l).
Proof.
  revert i. induction l as [|y l IH]; intros i; [done|]. simpl.
  case_decide; [eauto|]. destruct i as [|i]; simpl.
  - intros [= ->]. done.
  - intros Hl. destruct (IH i Hl) as [r ->]. eauto.
Qed.

Lemma py_remove_NoDup (x : Source) (l : list Source) (i : nat) :
  NoDup (oid <$> l) → l !! i = Some x → py_remove x l = Some (delete i l).
Proof.
  revert i. induction l as [|y l IH]; intros i Hnd; [done|].
  rewrite fmap_cons in Hnd. apply NoDup_cons in Hnd as [Hy Hnd].
  destruct i as [|i]; simpl.
  - intros [= ->]. by rewrite decide_True.
  - intros Hl. rewrite decide_False.
    + by rewrite (IH i Hnd Hl).
    + intros Heq. apply Hy. rewrite Heq.
      apply list_elem_of_fmap. exists x. split; [done|].
      by eapply list_elem_of_lookup_2.
Qed.

(** ** The registry *)

(** What [current_source_info] leaves as it is. *)
Lemma current_source_info_attrs (p : Pager) :
  let q := (current_source_info p).1 in
  sources q = sources p ∧
  current_source_index q = current_source_index p ∧
  in_colon_mode q = in_colon_mode p ∧
  message q = message p ∧
  displaying_help q = displaying_help p ∧
  forward_forever q = forward_forever p ∧
  source_info q = source_info p.
Proof.
  unfold current_source_info.
  by destruct (source_info p !! oid (current_source p)).
Qed.

Lemma focus_previous_source_nonempty (p : Pager) :
  sources p ≠ [] →
  ∃ q, focus_previous_source p = Return q ∧
       sources q = sources p ∧
       current_source_index q
       = ((current_source_index p - 1) `mod` Z.of_nat (length (sources p)))%Z ∧
       in_colon_mode q = false ∧
       message q = message p ∧
       displaying_help q = displaying_help p ∧
       forward_forever q = forward_forever p.
Proof.
  intros Hne. unfold focus_previous_source.
  rewrite decide_False by (by destruct (sources p)).
  match goal with |- context [current_source_info ?q] =>
    pose proof (current_source_info_attrs q) as Hq;
    destruct (current_source_info q) as [p1 a1] end.
  simpl in Hq. destruct Hq as (H1 & H2 & H3 & H4 & H5 & H6 & H7).
  eexists. split; [reflexivity|]. by pager_simpl.
Qed.

Lemma focus_next_source_nonempty (p : Pager) :
  sources p ≠ [] →
  ∃ q, focus_next_source p = Return q ∧
       sources q = sources p ∧
       current_source_index q
       = ((current_source_index p + 1) `mod` Z.of_nat (length (sources p)))%Z ∧
       in_colon_mode q = false ∧
       message q = message p ∧
       displaying_help q = displaying_help p ∧
       forward_forever q = forward_forever p.
Proof.
  intros Hne. unfold focus_next_source.
  rewrite decide_False by (by destruct (sources p)).
  match goal with |- context [current_source_info ?q] =>
    pose proof (current_source_info_attrs q) as Hq;
    destruct (current_source_info q) as [p1 a1] end.
  simpl in Hq. destruct Hq as (H1 & H2 & H3 & H4 & H5 & H6 & H7).
  eexists. split; [reflexivity|]. by pager_simpl.
Qed.

Lemma mod_length_valid (i : Z) (l : list Source) :
  l ≠ [] → (0 ≤ i `mod` Z.of_nat (length l) < Z.of_nat (length l))%Z.
Proof. intros Hne. apply Z.mod_pos_bound. destruct l; simpl; [done|lia]. Qed.

(** ** C8: cycling the focus *)

(** C8 (as amended). On every registry that is not empty, [focus_next_source]
    and [focus_previous_source] return, set the index to the index plus one
    and minus one modulo the number of sources, which is a valid index,
    clear the colon flag and leave the sources as they are. *)
Theorem focus_cycles_nonempty (p : Pager) :
  sources p ≠ [] →
  ∃ p1 p2,
    focus_next_source p = Return p1 ∧
    current_source_index p1
    = ((current_source_index p + 1) `mod` Z.of_nat (length (sources p)))%Z ∧
    in_colon_mode p1 = false ∧ sources p1 = sources p ∧ index_valid p1 ∧
    focus_previous_source p = Return p2 ∧
    current_source_index p2
    = ((current_source_index p - 1) `mod` Z.of_nat (length (sources p)))%Z ∧
    in_colon_mode p2 = false ∧ sources p2 = sources p ∧ index_valid p2.
Proof.
  intros Hne.
  destruct (focus_next_source_nonempty p Hne) as (p1 & H1 & Hs1 & Hi1 & Hc1 & _).
  destruct (focus_previous_source_nonempty p Hne) as (p2 & H2 & Hs2 & Hi2 & Hc2 & _).
  assert (index_valid p1) as Hv1.
  { unfold index_valid. rewrite Hi1, Hs1. by apply mod_length_valid. }
  assert (index_valid p2) as Hv2.
  { unfold index_valid. rewrite Hi2, Hs2. by apply mod_length_valid. }
  by exists p1, p2.
Qed.

Lemma focus_cycles_nonempty_witness :
  ∃ p1 p2,
    focus_next_source (add_source sample_generator
                         (add_source sample_pipe Pager_init)) = Return p1 ∧
    current_source_index p1 = 0%Z ∧
    focus_previous_source (add_source sample_generator
                             (add_source sample_pipe Pager_init)) = Return p2 ∧
    current_source_index p2 = 0%Z.
Proof.
  destruct (focus_cycles_nonempty
              (add_source sample_generator (add_source sample_pipe Pager_init))
              ltac:(discriminate))
    as (p1 & p2 & H1 & Hi1 & _ & _ & _ & H2 & Hi2 & _).
  exists p1, p2. split; [exact H1|]. split; [exact Hi1|].
  split; [exact H2|exact Hi2].
Defined.

(** On the registry of a new pager, which is empty, both methods raise
    [ZeroDivisionError]. *)
Lemma focus_empty_registry_counterexample : ¬ focus_total_as_specified.
Proof.
  intros Hspec. destruct (Hspec Pager_init) as (p1 & p2 & H1 & _).
  vm_compute in H1. discriminate H1.
Qed.

(** ** C5: removing the current source *)

Lemma remove_current_source_many (p : Pager) :
  1 < length (sources p) →
  index_valid p →
  ∃ cur prev q l,
    py_getitem (sources p) (current_source_index p) = Some cur ∧
    py_getitem (sources p)
      ((current_source_index p - 1) `mod` Z.of_nat (length (sources p)))
    = Some prev ∧
    focus_previous_source p = Return q ∧
    sources q = sources p ∧
    current_source q = prev ∧
    in_colon_mode q = false ∧
    message q = message p ∧
    py_remove cur (sources p) = Some l ∧
    remove_current_source p = Return (set_sources l q) ∧
    (NoDup (oid <$> sources p) →
     l = delete (Z.to_nat (current_source_index p)) (sources p)).
Proof.
  intros Hlen Hv. unfold index_valid in Hv.
  assert (sources p ≠ []) as Hne by (destruct (sources p); simpl in *; [lia|done]).
  destruct (py_getitem_valid (sources p) (current_source_index p) Hv) as [cur Hcur].
  pose proof (mod_length_valid (current_source_index p - 1) (sources p) Hne) as Hm.
  destruct (py_getitem_valid (sources p) _ Hm) as [prev Hprev].
  destruct (focus_previous_source_nonempty p Hne)
    as (q & Hq & Hs & Hi & Hc & Hmsg & _).
  pose proof Hcur as Hcur'. rewrite py_getitem_nonneg in Hcur' by lia.
  destruct (py_remove_lookup cur (sources p) _ Hcur') as [l Hl].
  exists cur, prev, q, l. repeat split; try done.
  - unfold current_source. by rewrite Hs, Hi, Hprev.
  - unfold remove_current_source. rewrite decide_True by done.
    unfold current_source at 1. rewrite Hcur, Hq. simpl. by rewrite Hs, Hl.
  - intros Hnd. rewrite (py_remove_NoDup cur _ _ Hnd Hcur') in Hl. congruence.
Qed.

Lemma remove_current_source_refused (p : Pager) :
  length (sources p) ≤ 1 →
  ∃ p', remove_current_source p = Return p' ∧
        message p' = Some "Can't remove the last buffer." ∧
        sources p' = sources p ∧
        current_source_index p' = current_source_index p ∧
        in_colon_mode p' = in_colon_mode p ∧
        displaying_help p' = displaying_help p ∧
        forward_forever p' = forward_forever p ∧
        source_info p' = source_info p ∧
        heap p' = heap p ∧
        next_id p' = next_id p ∧
        layout_focus p' = layout_focus p ∧
        readers p' = readers p ∧
        threads p' = threads p ∧
        invalidations p' = invalidations p.
Proof.
  intros Hlen. unfold remove_current_source. rewrite decide_False by lia.
  eexists. split; [reflexivity|]. by repeat split.
Qed.

(** C5 (what the code does). Three sources are added, the first is focused
    and removed: these calls return, and leave two sources with the index
    one past the end, so that [current_source] is the dummy source.  On
    this reachable registry of more than one source
    [remove_current_source] does not remove the current source: after
    [focus_previous_source] has moved the index, [sources.remove] is given
    the dummy source and raises [ValueError]; no source is removed and no
    message is set. *)
Theorem remove_current_source_raises_on_stale_index :
  let notes := {| oid := 102; kind := StringSource "notes" |} in
  let p0 := add_source notes
              (add_source sample_generator (add_source sample_pipe Pager_init)) in
  let p1 := state_of (focus_next_source p0) in
  let p := state_of (remove_current_source p1) in
  focus_next_source p0 = Return p1 ∧
  index_valid p1 ∧
  remove_current_source p1 = Return p ∧
  reachable p ∧
  sources p = [sample_generator; notes] ∧
  current_source_index p = 2%Z ∧
  current_source p = _dummy_source ∧
  ∃ q, remove_current_source p = Raise ValueError q ∧
       sources q = [sample_generator; notes] ∧
       current_source_index q = 1%Z ∧
       message q = None.
Proof.
  intros notes p0 p1 p.
  split; [by vm_compute|]. split; [by vm_compute|]. split; [by vm_compute|].
  split.
  { eapply reachable_step; [|apply step_remove_current_source].
    eapply reachable_step; [|apply step_focus_next_source].
    eapply reachable_step; [|apply step_add_source].
    eapply reachable_step; [|apply step_add_source].
    eapply reachable_step; [apply reachable_init|apply step_add_source]. }
  split; [by vm_compute|]. split; [by vm_compute|]. split; [by vm_compute|].
  exists (state_of (remove_current_source p)).
  split; [by vm_compute|]. split; [by vm_compute|]. split; by vm_compute.
Qed.

(** ** C4: the index after the registry operations *)

Lemma remove_current_source_front (p : Pager) :
  1 < length (sources p) →
  current_source_index p = 0%Z →
  ∃ p', remove_current_source p = Return p' ∧
        sources p' = tail (sources p) ∧
        current_source_index p' = Z.of_nat (length (sources p')) ∧
        ¬ index_valid p' ∧
        current_source p' = _dummy_source.
Proof.
  intros Hlen Hi.
  destruct (remove_current_source_many p Hlen) as
    (cur & prev & q & l & Hcur & _ & Hq & Hs & _ & _ & _ & Hl & Hr & _).
  { unfold index_valid. lia. }
  rewrite Hi in Hcur.
  destruct (sources p) as [|s0 ss] eqn:Hsrc; [done|].
  rewrite py_getitem_nonneg in Hcur by lia. simpl in Hcur.
  injection Hcur as <-. simpl in Hl. rewrite decide_True in Hl by done.
  injection Hl as <-.
  destruct (focus_previous_source_nonempty p) as (q' & Hq' & _ & Hi' & _).
  { by rewrite Hsrc. }
  rewrite Hq in Hq'. injection Hq' as <-. rewrite Hi, Hsrc in Hi'.
  assert (current_source_index q = Z.of_nat (length ss)) as Hidx.
  { rewrite Hi'. simpl length in *.
    replace (0 - 1)%Z with (-1)%Z by lia.
    rewrite <- (Z.mod_add _ 1) by lia. rewrite Z.mod_small; lia. }
  exists (set_sources ss q). split; [done|]. pager_simpl.
  split; [done|]. split; [done|]. split.
  - unfold index_valid. pager_simpl. lia.
  - unfold current_source. pager_simpl. rewrite Hidx.
    rewrite py_getitem_nonneg by lia. rewrite Nat2Z.id.
    by rewrite lookup_ge_None_2.
Qed.

(** C4 (what the code does). With two sources open and the first one focused,
    which is a reachable state with a valid index, [remove_current_source]
    leaves one source and the index 1: the index is no longer valid and
    [current_source] falls back to the dummy source. *)
Theorem remove_current_source_front_breaks_index :
  let p := state_of (focus_previous_source
             (add_source sample_generator (add_source sample_pipe Pager_init))) in
  reachable p ∧ index_valid p ∧ sources p = [sample_pipe; sample_generator] ∧
  current_source_index p = 0%Z ∧
  ∃ p', remove_current_source p = Return p' ∧
        sources p' = [sample_generator] ∧
        current_source_index p' = 1%Z ∧
        ¬ index_valid p' ∧
        current_source p' = _dummy_source.
Proof.
  intros p. split.
  { eapply reachable_step; [|apply step_focus_previous_source].
    eapply reachable_step; [|apply step_add_source].
    eapply reachable_step; [apply reachable_init|apply step_add_source]. }
  split; [by vm_compute|]. split; [reflexivity|]. split; [reflexivity|].
  destruct (remove_current_source_front p) as (p' & Hr & Hs & Hi & Hv & Hc).
  { vm_compute. lia. }
  { reflexivity. }
  exists p'. split; [done|]. split; [done|]. split; [|done].
  rewrite Hi, Hs. reflexivity.
Qed.

(** ** C9: showing the help twice *)

Lemma add_source_attrs (s : Source) (p : Pager) :
  sources (add_source s p) = sources p ++ [s] ∧
  current_source_index (add_source s p) = Z.of_nat (length (sources p)) ∧
  current_source (add_source s p) = s ∧
  lookup_info (add_source s p) s = Some (next_id p, _SourceInfo_init s) ∧
  layout_focus (add_source s p) = Some (next_id p) ∧
  message (add_source s p) = message p ∧
  displaying_help (add_source s p) = displaying_help p.
Proof.
  assert (current_source_index (add_source s p) = Z.of_nat (length (sources p)))
    as Hi.
  { unfold add_source. pager_simpl. rewrite length_app. simpl. lia. }
  split; [done|]. split; [done|]. split.
  { unfold current_source. rewrite Hi.
    change (sources (add_source s p)) with (sources p ++ [s]).
    by rewrite py_getitem_last. }
  split; [|done].
  unfold lookup_info, add_source. pager_simpl. by rewrite !lookup_insert_eq.
Qed.

(** C9. [display_help] is idempotent: a second call in a row changes
    nothing.  While the help is displayed a call returns the pager as it
    is; from a pager that does not display the help, two calls add exactly
    one source, the help text, at the end of the sources. *)
Theorem display_help_idempotent HELP (p : Pager) :
  display_help HELP (display_help HELP p) = display_help HELP p ∧
  (displaying_help p = true → display_help HELP p = p) ∧
  (displaying_help p = false →
   sources (display_help HELP (display_help HELP p))
   = sources p ++ [{| oid := next_id p; kind := StringSource HELP |}] ∧
   current_source (display_help HELP (display_help HELP p))
   = {| oid := next_id p; kind := StringSource HELP |}).
Proof.
  assert (displaying_help p = false →
          displaying_help (display_help HELP p) = true) as Hd.
  { intros Hf. unfold display_help. by rewrite Hf. }
  split; [|split].
  - destruct (displaying_help p) eqn:Hf.
    + unfold display_help. by rewrite !Hf.
    + specialize (Hd eq_refl). unfold display_help at 1. by rewrite Hd.
  - intros Ht. unfold display_help. by rewrite Ht.
  - intros Hf. specialize (Hd Hf). unfold display_help at 1 3. rewrite Hd.
    unfold display_help. rewrite Hf.
    destruct (add_source_attrs {| oid := next_id p; kind := StringSource HELP |}
                (set_next_id (S (next_id p)) p)) as (Hs & Hi & Hc & _).
    split; [exact Hs|]. unfold current_source in *. pager_simpl. exact Hc.
Qed.

Lemma display_help_idempotent_witness :
  display_help "help" (display_help "help" Pager_init)
  = display_help "help" Pager_init ∧
  sources (display_help "help" (display_help "help" Pager_init))
  = [{| oid := 1; kind := StringSource "help" |}].
Proof.
  split.
  - exact (proj1 (display_help_idempotent "help" Pager_init)).
  - exact (proj1 (proj2 (proj2 (display_help_idempotent "help" Pager_init))
                   eq_refl)).
Defined.

(** ** C6: opening a file *)

(** C6. When the construction of the [FileSource] raises [IOError],
    [open_file] returns instead of raising; in the pager it returns the
    message is the text of the error and everything else is as before: no
    source is added, the sources, the index and the source data are
    unchanged.  When the construction succeeds, the new source is appended
    to the sources, registered and focused. *)
Theorem open_file_spec ctor filename (p : Pager) :
  (∀ e, ctor filename = Some (IOError e) →
   ∃ p', open_file ctor filename p = Return p' ∧
         message p' = Some e ∧
         sources p' = sources p ∧
         current_source_index p' = current_source_index p ∧
         in_colon_mode p' = in_colon_mode p ∧
         displaying_help p' = displaying_help p ∧
         forward_forever p' = forward_forever p ∧
         source_info p' = source_info p ∧
         heap p' = heap p ∧
         next_id p' = next_id p ∧
         layout_focus p' = layout_focus p ∧
         readers p' = readers p ∧
         threads p' = threads p ∧
         invalidations p' = invalidations p) ∧
  (ctor filename = None →
   ∃ p', open_file ctor filename p = Return p' ∧
         sources p' = sources p ++ [{| oid := next_id p;
                                       kind := FileSource filename |}] ∧
         current_source_index p' = Z.of_nat (length (sources p)) ∧
         current_source p' = {| oid := next_id p; kind := FileSource filename |} ∧
         lookup_info p' (current_source p')
         = Some (S (next_id p),
                 _SourceInfo_init {| oid := next_id p;
                                     kind := FileSource filename |}) ∧
         layout_focus p' = Some (S (next_id p)) ∧
         message p' = message p).
Proof.
  split.
  - intros e He. unfold open_file. rewrite He.
    eexists. split; [reflexivity|]. by repeat split.
  - intros He. unfold open_file. rewrite He. eexists. split; [reflexivity|].
    destruct (add_source_attrs {| oid := next_id p; kind := FileSource filename |}
                (set_next_id (S (next_id p)) p))
      as (Hs & Hi & Hc & Hl & Hf & Hm & _).
    rewrite Hc. by pager_simpl.
Qed.

Lemma open_file_spec_witness :
  (∃ p', open_file sample_FileSource_init "missing" Pager_init = Return p' ∧
         message p'
         = Some "[Errno 2] No such file or directory: 'missing'" ∧
         sources p' = [] ∧
         current_source_index p' = 0%Z) ∧
  ∃ p', open_file sample_FileSource_init "README" Pager_init = Return p' ∧
        sources p' = [{| oid := 1; kind := FileSource "README" |}].
Proof.
  split.
  - destruct (proj1 (open_file_spec sample_FileSource_init "missing" Pager_init)
                "[Errno 2] No such file or directory: 'missing'" eq_refl)
      as (p' & Hr & Hm & Hs & Hi & _).
    exists p'. split; [exact Hr|]. split; [exact Hm|].
    split; [exact Hs|exact Hi].
  - destruct (proj2 (open_file_spec sample_FileSource_init "README" Pager_init)
                eq_refl) as (p' & Hr & Hs & _).
    exists p'. split; [exact Hr|exact Hs].
Defined.

(** ** C10: the empty registry *)

(** C10 (what the code does). On a new pager, whose registry is empty,
    [current_source] is the dummy source, and [_on_render] does not return:
    [self.source_info[source]] raises [KeyError], whatever the render cycle
    observes, and nothing is prefetched. *)
Theorem on_render_empty_registry_raises env :
  sources Pager_init = [] ∧
  current_source Pager_init = _dummy_source ∧
  _on_render env Pager_init = Raise KeyError Pager_init.
Proof. done. Qed.

(** ** C7: follow-forever *)

Lemma read_into_follow (tokens : list token_char) (n n' : Z)
    (si si' : _SourceInfo) :
  read_into true tokens n si = Some (si', n') →
  cursor_position (buffer si') = py_len (text (buffer si')).
Proof.
  unfold read_into.
  destruct (handle_content _ _ _) as [[[lt m] data]|]; [|done].
  by intros [= <- _].
Qed.

(** C7 (as amended). With follow-forever on: (a) a render cycle that has
    render info, with the focused source idle and not at eof, starts a
    prefetch episode whatever the number of lines below the bottom, and a
    render cycle that has no render info starts nothing; (b) after every
    chunk that a reader or a worker appends, the cursor of the buffer is at
    the end of its text. *)
Theorem follow_forever_spec (p : Pager) :
  forward_forever p = true →
  (∀ env a si info,
     idle_not_eof env p a si →
     get_render_info env = Some info →
     ∃ p' e, _on_render env p = Return p' ∧ flagged a p' = true ∧
             prefetch_started p p' e ∧ ep_info e = a ∧
             ep_source e = current_source p) ∧
  (∀ env a si,
     idle_not_eof env p a si →
     get_render_info env = None →
     _on_render env p = Return p) ∧
  (∀ env tokens key e si p',
     receive_content_from_fd env tokens key e si p = Return p' →
     ∃ si', heap p' !! ep_info e = Some si' ∧
            cursor_position (buffer si') = py_len (text (buffer si'))) ∧
  (∀ env tokens i e si p',
     (0 < ep_lines e)%Z → eof env (ep_source e) = false →
     receive_content_from_generator env tokens i e si p = Return p' →
     ∃ si', heap p' !! ep_info e = Some si' ∧
            cursor_position (buffer si') = py_len (text (buffer si'))).
Proof.
  intros Hff. split; [|split; [|split]].
  - intros env a si info Hidle Hi.
    destruct (on_render_starts env p a si info Hidle Hi (or_intror Hff))
      as (p' & e & H1 & H2 & H3 & H4 & H5 & _).
    by exists p', e.
  - intros env a si (Hl & Hw & He) Hi. unfold _on_render.
    by rewrite Hl, Hw, He, Hi.
  - intros env tokens key e si p'.
    destruct (read_into (forward_forever p) tokens (ep_lines e) si)
      as [[si' n]|] eqn:E.
    + intros Hr.
      pose proof (heap_receive_content_from_fd env tokens key e si si' n p E) as Hh.
      rewrite Hr in Hh. simpl in Hh. rewrite Hff in E.
      apply read_into_follow in E.
      eexists. rewrite Hh, lookup_insert_eq. split; [reflexivity|].
      by destruct (bool_decide _ || eof _ _).
    + unfold receive_content_from_fd. by rewrite E.
  - intros env tokens i e si p' Hl He.
    unfold receive_content_from_generator.
    rewrite bool_decide_eq_true_2, He by done. simpl.
    destruct (read_into (forward_forever p) tokens (ep_lines e) si)
      as [[si' n]|] eqn:E; [|done].
    intros [= <-]. rewrite Hff in E. apply read_into_follow in E.
    exists si'. pager_simpl. by rewrite lookup_insert_eq.
Qed.

Lemma follow_forever_spec_witness :
  ∃ p' e,
    _on_render (sample_env 25)
      (set_forward_forever true (add_source sample_pipe Pager_init))
    = Return p' ∧
    prefetch_started
      (set_forward_forever true (add_source sample_pipe Pager_init)) p' e.
Proof.
  destruct (proj1 (follow_forever_spec
              (set_forward_forever true (add_source sample_pipe Pager_init))
              eq_refl)
              (sample_env 25) 1 (_SourceInfo_init sample_pipe) (sample_info 25)
              (sample_idle 25 sample_pipe ltac:(done)) eq_refl)
    as (p' & e & H1 & _ & H3 & _).
  exists p', e. split; [exact H1|exact H3].
Defined.

(** Follow-forever on a render cycle without render info (the window has not
    been drawn): the focused pipe is idle and not at eof, and [_on_render]
    returns with the pager as it was, no episode begun, where the
    specification asks for a prefetch on every render cycle. *)
Lemma follow_forever_counterexample : ¬ follow_forever_as_specified.
Proof.
  intros Hspec.
  destruct (Hspec {| get_render_info := None; source_eof := λ _, false |}
              (set_forward_forever true (add_source sample_pipe Pager_init))
              1 (_SourceInfo_init sample_pipe))
    as (p' & e & Hr & Hf & _).
  - reflexivity.
  - repeat split.
  - vm_compute in Hr. injection Hr as <-.
    vm_compute in Hf. discriminate Hf.
Qed.

(** * Further properties of the code *)

(** ** The chunk handler *)

(** X1. [handle_content] returns the characters of the chunk in order, takes one
    off the counter for every terminator, and opens one line for every
    terminator. *)
Theorem handle_content_returns (tokens : list token_char) :
  ∀ lt n lt' n' data,
    handle_content lt n tokens = Some (lt', n', data) →
    data = snd <$> tokens ∧
    n' = (n - Z.of_nat (terminators tokens))%Z ∧
    length lt' = length lt + terminators tokens.
Proof.
  induction tokens as [|tc tokens IH]; intros lt n lt' n' data; simpl.
  - intros [= <- <- <-]. unfold terminators. simpl. split; [done|]. split; lia.
  - unfold terminators. rewrite filter_cons.
    destruct (decide (tc.2 = newline)) as [Hnl|Hnl].
    + destruct (handle_content _ _ tokens) as [[[lt1 n1] d1]|] eqn:E; [|done].
      intros [= <- <- <-]. apply IH in E as (-> & -> & Hlen).
      unfold terminators in *. rewrite length_app in Hlen. simpl in *.
      split; [done|]. split; lia.
    + destruct (append_to_last tc lt) as [lt0|] eqn:Ea; [|done].
      destruct (handle_content _ _ tokens) as [[[lt1 n1] d1]|] eqn:E; [|done].
      intros [= <- <- <-]. apply IH in E as (-> & -> & Hlen).
      unfold append_to_last in Ea. destruct (last lt); [|done].
      injection Ea as <-. rewrite length_insert in Hlen.
      unfold terminators in *. split; [done|]. split; lia.
Qed.

Lemma handle_content_returns_witness :
  ∃ lt', handle_content [[]] 15 [([], "a"); ([], newline); ([], "b")]
         = Some (lt', 14%Z, ["a"; newline; "b"]) ∧ length lt' = 2.
Proof.
  exists [[([], "a")]; [([], "b")]].
  pose proof (handle_content_returns [([], "a"); ([], newline); ([], "b")]
                [[]] 15 [[([], "a")]; [([], "b")]] 14
                ["a"; newline; "b"] eq_refl) as (_ & _ & Hlen).
  split; [reflexivity|exact Hlen].
Defined.

(** X2. The [IndexError] of [line_tokens[-1]]: [handle_content] fails exactly
    when the list of lines is empty and the chunk starts with a character
    that is not a terminator; a list with an open line never fails. *)
Theorem handle_content_fails_iff (tokens : list token_char)
    (lt : list (list token_char)) (n : Z) :
  handle_content lt n tokens = None ↔
  lt = [] ∧ ∃ tc rest, tokens = tc :: rest ∧ tc.2 ≠ newline.
Proof.
  split.
  - destruct lt as [|l lt].
    + destruct tokens as [|tc rest]; [done|]. simpl.
      destruct (decide (tc.2 = newline)) as [Hnl|Hnl]; [|eauto].
      destruct (handle_content_spec rest [[]] (n - 1)) as (lt' & -> & _);
        done.
    + destruct (handle_content_spec tokens (l :: lt) n) as (lt' & -> & _); done.
  - intros (-> & tc & rest & -> & Hnl). simpl. by rewrite decide_False.
Qed.

(** ** Open sources stay registered *)

Lemma keeps_objects_calm (p p' : Pager) : calm p p' → keeps_objects p p'.
Proof.
  intros (_ & _ & _ & Hh) a Ha.
  destruct (Hh a) as [->|(_ & s & ->)]; eauto.
Qed.

Lemma keeps_objects_insert (p p' : Pager) a si :
  heap p' = <[a:=si]> (heap p) → keeps_objects p p'.
Proof.
  intros Hh b Hb. rewrite Hh.
  destruct (decide (b = a)) as [->|Hne];
    [rewrite lookup_insert_eq|rewrite lookup_insert_ne by done]; eauto.
Qed.

Lemma keeps_objects_refl (p p' : Pager) : heap p' = heap p → keeps_objects p p'.
Proof. intros Hh a. by rewrite Hh. Qed.

Lemma registered_shrinks (p p' : Pager) :
  shrinks p p' → keeps_objects p p' → registered p → registered p'.
Proof.
  intros [Hsi Hs] Hk [R1 R2]. split.
  - intros o a. rewrite Hsi. intros Ho. apply Hk. eauto.
  - intros s Hin. rewrite Hsi. auto.
Qed.

Lemma registered_add_source (s : Source) (p : Pager) :
  (∀ a, is_Some (heap p !! a) → a < next_id p) →
  registered p → registered (add_source s p).
Proof.
  intros I1 [R1 R2]. unfold add_source. split; pager_simpl.
  - intros o a. rewrite lookup_insert_Some. intros [[_ <-]|[_ Ho]].
    + rewrite lookup_insert_eq. eauto.
    + destruct (decide (a = next_id p)) as [->|Hne];
        [rewrite lookup_insert_eq|rewrite lookup_insert_ne by done]; eauto.
  - intros s' [Hin| ->%list_elem_of_singleton]%elem_of_app.
    + destruct (decide (oid s = oid s')) as [->|Hne];
        [rewrite lookup_insert_eq|rewrite lookup_insert_ne by done]; eauto.
    + rewrite lookup_insert_eq. eauto.
Qed.

Lemma py_remove_subseteq (x : Source) (l r : list Source) :
  py_remove x l = Some r → ∀ s, s ∈ r → s ∈ l.
Proof.
  revert r. induction l as [|y l IH]; intros r; simpl; [done|].
  case_decide.
  - intros [= ->] s Hs. by apply elem_of_cons; right.
  - destruct (py_remove x l) as [r'|]; [|done]. intros [= <-] s.
    rewrite !elem_of_cons. intros [->|Hs]; eauto.
Qed.

Lemma shrinks_attrs (p p' : Pager) :
  source_info p' = source_info p → sources p' = sources p → shrinks p p'.
Proof. intros H1 H2. split; [done|]. by rewrite H2. Qed.

Lemma shrinks_trans (p1 p2 p3 : Pager) :
  shrinks p1 p2 → shrinks p2 p3 → shrinks p1 p3.
Proof. intros [H1 H2] [H3 H4]. split; [congruence|auto]. Qed.

Lemma shrinks_focus_previous_source (p : Pager) :
  shrinks p (state_of (focus_previous_source p)).
Proof.
  unfold focus_previous_source. case_decide; [by apply shrinks_attrs|].
  match goal with |- context [current_source_info ?q] =>
    pose proof (current_source_info_attrs q) as Hq;
    destruct (current_source_info q) as [p1 a1] end.
  simpl in Hq. destruct Hq as (H1 & _ & _ & _ & _ & _ & H7).
  by apply shrinks_attrs.
Qed.

Lemma shrinks_focus_next_source (p : Pager) :
  shrinks p (state_of (focus_next_source p)).
Proof.
  unfold focus_next_source. case_decide; [by apply shrinks_attrs|].
  match goal with |- context [current_source_info ?q] =>
    pose proof (current_source_info_attrs q) as Hq;
    destruct (current_source_info q) as [p1 a1] end.
  simpl in Hq. destruct Hq as (H1 & _ & _ & _ & _ & _ & H7).
  by apply shrinks_attrs.
Qed.

Lemma shrinks_remove_current_source (p : Pager) :
  shrinks p (state_of (remove_current_source p)).
Proof.
  unfold remove_current_source. case_decide; [|by apply shrinks_attrs].
  pose proof (shrinks_focus_previous_source p) as Hq.
  destruct (focus_previous_source p) as [p1|e p1]; simpl in *; [|done].
  destruct (py_remove _ _) as [l|] eqn:E; simpl; [|done].
  eapply shrinks_trans; [apply Hq|]. split; [done|]. pager_simpl.
  by apply (py_remove_subseteq _ _ _ E).
Qed.

Lemma shrinks_quit_help (p : Pager) : shrinks p (state_of (quit_help p)).
Proof.
  unfold quit_help. destruct (displaying_help p); [|by apply shrinks_attrs].
  pose proof (shrinks_remove_current_source p) as Hq.
  destruct (remove_current_source p) as [p1|e p1]; simpl in *; [|done].
  eapply shrinks_trans; [apply Hq|]. by apply shrinks_attrs.
Qed.

Lemma frame_on_render env (p : Pager) :
  shrinks p (state_of (_on_render env p)) ∧
  keeps_objects p (state_of (_on_render env p)).
Proof.
  unfold _on_render.
  destruct (lookup_info p (current_source p)) as [[a si]|];
    [|split; [by apply shrinks_attrs|by apply keeps_objects_refl]].
  destruct (negb _ && negb _);
    [|split; [by apply shrinks_attrs|by apply keeps_objects_refl]].
  destruct (get_render_info env) as [info|];
    [|split; [by apply shrinks_attrs|by apply keeps_objects_refl]].
  destruct (bool_decide _ || forward_forever p);
    [|split; [by apply shrinks_attrs|by apply keeps_objects_refl]].
  destruct (get_fd (current_source p));
    (split; [by apply shrinks_attrs|by eapply keeps_objects_insert]).
Qed.

Lemma frame_receive_content_from_fd env tokens key e si (p : Pager) :
  shrinks p (state_of (receive_content_from_fd env tokens key e si p)) ∧
  keeps_objects p (state_of (receive_content_from_fd env tokens key e si p)).
Proof.
  destruct (read_into (forward_forever p) tokens (ep_lines e) si)
    as [[si' n]|] eqn:E.
  - split.
    + unfold receive_content_from_fd. rewrite E.
      destruct (bool_decide _ || eof _ _); [destruct (ep_fd (set_lines n e))|];
        by apply shrinks_attrs.
    + eapply keeps_objects_insert.
      by apply (heap_receive_content_from_fd env tokens key e si si' n).
  - unfold receive_content_from_fd. rewrite E.
    split; [by apply shrinks_attrs|by apply keeps_objects_refl].
Qed.

Lemma frame_receive_content_from_generator env tokens i e si (p : Pager) :
  heap p !! ep_info e = Some si →
  shrinks p (state_of (receive_content_from_generator env tokens i e si p)) ∧
  keeps_objects p (state_of (receive_content_from_generator env tokens i e si p)).
Proof.
  intros Hsi. unfold receive_content_from_generator.
  destruct (bool_decide _ && negb _).
  - destruct (read_into _ _ _ _) as [[si' n]|].
    + split; [by apply shrinks_attrs|by eapply keeps_objects_insert].
    + split; [by apply shrinks_attrs|by apply keeps_objects_refl].
  - split; [by apply shrinks_attrs|by eapply keeps_objects_insert].
Qed.

Lemma registered_step (p : Pager) (ev : event) (p' : Pager) :
  step p ev p' → prefetch_inv p → registered p → registered p'.
Proof.
  intros Hstep (I1 & _ & _) Hreg.
  pose proof (step_calm p ev p' Hstep) as Hc.
  destruct Hstep.
  - by apply registered_add_source.
  - eapply registered_shrinks; eauto using shrinks_remove_current_source,
      keeps_objects_calm.
  - eapply registered_shrinks; eauto using shrinks_focus_previous_source,
      keeps_objects_calm.
  - eapply registered_shrinks; eauto using shrinks_focus_next_source,
      keeps_objects_calm.
  - unfold open_file in *. destruct (ctor filename) as [[]|];
      try (eapply registered_shrinks; eauto using keeps_objects_calm;
           by apply shrinks_attrs).
    simpl. apply registered_add_source.
    + pager_simpl. intros a Ha. apply I1 in Ha. lia.
    + eapply registered_shrinks; [| |exact Hreg];
        [by apply shrinks_attrs|by apply keeps_objects_refl].
  - unfold display_help in *. destruct (displaying_help p); [done|].
    eapply (registered_shrinks (add_source _ _));
      [by apply shrinks_attrs|by apply keeps_objects_refl|].
    apply registered_add_source.
    + pager_simpl. intros a Ha. apply I1 in Ha. lia.
    + eapply registered_shrinks; [| |exact Hreg];
        [by apply shrinks_attrs|by apply keeps_objects_refl].
  - eapply registered_shrinks; eauto using shrinks_quit_help, keeps_objects_calm.
  - eapply registered_shrinks; eauto using keeps_objects_calm.
    by apply shrinks_attrs.
  - eapply registered_shrinks; eauto using keeps_objects_calm.
    by apply shrinks_attrs.
  - eapply registered_shrinks; eauto using keeps_objects_calm.
    by apply shrinks_attrs.
  - destruct (frame_on_render env p). by eapply registered_shrinks.
  - destruct (frame_receive_content_from_fd env tokens key e si p).
    by eapply registered_shrinks.
  - destruct (frame_receive_content_from_generator env tokens i e si p); [done|].
    by eapply registered_shrinks.
Qed.

Lemma registered_reachable (p : Pager) : reachable p → registered p.
Proof.
  induction 1 as [|p ev p' Hr IH Hstep].
  - split; [intros o a|intros s]; simpl.
    + by rewrite lookup_empty.
    + by intros ?%elem_of_nil.
  - eapply registered_step; eauto using prefetch_inv_reachable.
Qed.

Lemma lookup_info_registered (p : Pager) (s : Source) :
  registered p → s ∈ sources p → is_Some (lookup_info p s).
Proof.
  intros [R1 R2] Hin. unfold lookup_info.
  destruct (R2 s Hin) as [a Ha]. rewrite Ha.
  destruct (R1 _ _ Ha) as [si ->]. eauto.
Qed.

Lemma current_source_valid (p : Pager) :
  index_valid p → current_source p ∈ sources p.
Proof.
  intros Hv. unfold current_source.
  destruct (py_getitem_valid _ _ Hv) as [s Hs]. rewrite Hs.
  rewrite py_getitem_nonneg in Hs by (unfold index_valid in Hv; lia).
  by eapply list_elem_of_lookup_2.
Qed.

(** X3. In every reachable state every open source is registered with a live
    [_SourceInfo]; so with a valid index the lookup
    [self.source_info[source]] of [_on_render] finds its entry and
    [_on_render] returns, whatever the render cycle observes. *)
Theorem on_render_returns (p : Pager) :
  reachable p → index_valid p →
  (∀ s, s ∈ sources p → is_Some (lookup_info p s)) ∧
  ∀ env, ∃ p', _on_render env p = Return p'.
Proof.
  intros Hreach Hv. pose proof (registered_reachable p Hreach) as Hreg.
  split; [intros s; by apply lookup_info_registered|].
  intros env. unfold _on_render.
  destruct (lookup_info_registered p (current_source p) Hreg
              (current_source_valid p Hv)) as [[a si] ->].
  destruct (negb _ && negb _); [|eauto].
  destruct (get_render_info env); [|eauto].
  destruct (bool_decide _ || forward_forever p); [|eauto].
  destruct (get_fd (current_source p)); eauto.
Qed.

Lemma on_render_returns_witness :
  ∃ p', _on_render (sample_env 5) (add_source sample_pipe Pager_init)
        = Return p'.
Proof.
  assert (reachable (add_source sample_pipe Pager_init)) as Hr.
  { eapply reachable_step; [apply reachable_init|apply step_add_source]. }
  assert (index_valid (add_source sample_pipe Pager_init)) as Hv.
  { unfold index_valid. simpl. lia. }
  exact (proj2 (on_render_returns _ Hr Hv) (sample_env 5)).
Defined.

(** ** The registry: adding and removing sources *)

(** X4. [add_source] appends the source and focuses it, whatever the index was
    before: the index is valid afterwards, the new source is the current
    one and it is registered with a new [_SourceInfo]. *)
Theorem add_source_focuses (s : Source) (p : Pager) :
  sources (add_source s p) = sources p ++ [s] ∧
  index_valid (add_source s p) ∧
  current_source (add_source s p) = s ∧
  lookup_info (add_source s p) s = Some (next_id p, _SourceInfo_init s) ∧
  layout_focus (add_source s p) = Some (next_id p).
Proof.
  destruct (add_source_attrs s p) as (Hs & Hi & Hc & Hl & Hf & _).
  repeat split; try done.
  - rewrite Hi. lia.
  - rewrite Hi, Hs, length_app. simpl. lia.
Qed.

Lemma mod_pred_small (i n : Z) : (0 < i < n)%Z → ((i - 1) `mod` n = i - 1)%Z.
Proof. intros Hi. apply Z.mod_small. lia. Qed.

(** X5. Removing the current source at a position after the first, in a registry
    whose sources are distinct objects: the source is deleted at its position,
    the index moves one back and stays valid, and the source before the
    removed one is the current one. *)
Theorem remove_current_source_inner (p : Pager) :
  (0 < current_source_index p < Z.of_nat (length (sources p)))%Z →
  NoDup (oid <$> sources p) →
  ∃ p' prev,
    remove_current_source p = Return p' ∧
    sources p' = delete (Z.to_nat (current_source_index p)) (sources p) ∧
    current_source_index p' = (current_source_index p - 1)%Z ∧
    index_valid p' ∧
    sources p !! Z.to_nat (current_source_index p - 1) = Some prev ∧
    current_source p' = prev.
Proof.
  intros Hi Hnd.
  destruct (remove_current_source_many p) as
    (cur & prev & q & l & Hcur & Hprev & Hq & Hs & Hc & _ & _ & Hl & Hr & Hd).
  { lia. } { unfold index_valid. lia. }
  specialize (Hd Hnd). subst l.
  destruct (focus_previous_source_nonempty p) as (q' & Hq' & _ & Hi' & _).
  { destruct (sources p); simpl in *; [lia|done]. }
  rewrite Hq in Hq'. injection Hq' as <-.
  rewrite mod_pred_small in Hi', Hprev by lia.
  rewrite py_getitem_nonneg in Hprev by lia.
  exists (set_sources (delete (Z.to_nat (current_source_index p)) (sources p)) q),
    prev.
  split; [done|]. pager_simpl. split; [done|]. split; [done|].
  assert (length (delete (Z.to_nat (current_source_index p)) (sources p))
          = pred (length (sources p))) as Hlen.
  { rewrite length_delete; [lia|]. apply lookup_lt_is_Some. lia. }
  split; [|split; [done|]].
  - unfold index_valid. pager_simpl. rewrite Hi', Hlen. lia.
  - unfold current_source. pager_simpl. rewrite Hi'.
    rewrite py_getitem_nonneg by lia.
    rewrite list_lookup_delete_lt by lia. by rewrite Hprev.
Qed.

Lemma remove_current_source_inner_witness :
  ∃ p', remove_current_source
          (add_source sample_generator (add_source sample_pipe Pager_init))
        = Return p' ∧
        sources p' = [sample_pipe] ∧ current_source p' = sample_pipe.
Proof.
  destruct (remove_current_source_inner
              (add_source sample_generator (add_source sample_pipe Pager_init)))
    as (p' & prev & Hr & Hs & _ & _ & Hp & Hc).
  { simpl. lia. }
  { simpl. apply NoDup_cons. split; [|apply NoDup_singleton].
    rewrite list_elem_of_singleton. discriminate. }
  exists p'. split; [exact Hr|]. split; [exact Hs|].
  vm_compute in Hp. injection Hp as <-. exact Hc.
Defined.

(** X6. Removing the current source when it is the first of several: the first
    source is dropped, but the index, wrapped to the last position before the
    removal, is now the number of sources left, one past the end, and
    [current_source] is the dummy source. *)
Theorem remove_current_source_at_front (p : Pager) :
  1 < length (sources p) →
  current_source_index p = 0%Z →
  ∃ p', remove_current_source p = Return p' ∧
        sources p' = tail (sources p) ∧
        current_source_index p' = Z.of_nat (length (sources p')) ∧
        ¬ index_valid p' ∧
        current_source p' = _dummy_source.
Proof. apply remove_current_source_front. Qed.

Lemma remove_current_source_at_front_witness :
  ∃ p', remove_current_source
          (state_of (focus_next_source
             (add_source sample_generator (add_source sample_pipe Pager_init))))
        = Return p' ∧
        sources p' = [sample_generator] ∧ current_source_index p' = 1%Z.
Proof.
  destruct (remove_current_source_at_front
              (state_of (focus_next_source
                 (add_source sample_generator (add_source sample_pipe Pager_init)))))
    as (p' & Hr & Hs & Hi & _).
  { vm_compute. lia. }
  { reflexivity. }
  exists p'. split; [exact Hr|]. split; [exact Hs|].
  rewrite Hi, Hs. reflexivity.
Defined.

Lemma py_remove_None (x : Source) (l : list Source) :
  (∀ s, s ∈ l → oid s ≠ oid x) → py_remove x l = None.
Proof.
  induction l as [|y l IH]; intros Hl; simpl; [done|].
  rewrite decide_False by (apply Hl, elem_of_cons; by left).
  rewrite IH; [done|]. intros s Hs. apply Hl, elem_of_cons. by right.
Qed.

(** X7. With several sources and the index out of range (as the removal at the
    front leaves it), [remove_current_source] raises the [ValueError] of
    [list.remove]: the current source is the dummy, which is not in the
    list.  The focus has been moved by then: the index is changed, the
    sources are not. *)
Theorem remove_current_source_out_of_range (p : Pager) :
  1 < length (sources p) →
  py_getitem (sources p) (current_source_index p) = None →
  (∀ s, s ∈ sources p → oid s ≠ oid _dummy_source) →
  ∃ q, remove_current_source p = Raise ValueError q ∧
       sources q = sources p ∧
       current_source_index q
       = ((current_source_index p - 1) `mod` Z.of_nat (length (sources p)))%Z.
Proof.
  intros Hlen Hget Hfresh.
  destruct (focus_previous_source_nonempty p) as (q & Hq & Hs & Hi & _).
  { destruct (sources p); simpl in *; [lia|done]. }
  exists q. split; [|done].
  unfold remove_current_source. rewrite decide_True by done.
  unfold current_source. rewrite Hget, Hq. simpl.
  by rewrite Hs, py_remove_None.
Qed.

Lemma remove_current_source_out_of_range_witness :
  ∃ q, remove_current_source
         (state_of (remove_current_source
            (state_of (focus_next_source
               (add_source {| oid := 102; kind := StringSource "help" |}
                  (add_source sample_generator
                     (add_source sample_pipe Pager_init)))))))
       = Raise ValueError q ∧
       sources q = [sample_generator; {| oid := 102; kind := StringSource "help" |}] ∧
       current_source_index q = 1%Z.
Proof.
  destruct (remove_current_source_out_of_range
              (state_of (remove_current_source
                 (state_of (focus_next_source
                    (add_source {| oid := 102; kind := StringSource "help" |}
                       (add_source sample_generator
                          (add_source sample_pipe Pager_init))))))))
    as (q & Hr & Hs & Hi).
  { vm_compute. lia. }
  { reflexivity. }
  { intros s. vm_compute sources. rewrite !elem_of_cons.
    intros [->|[->|Hs]]; [done|done|by apply elem_of_nil in Hs]. }
  exists q. split; [exact Hr|]. split; [exact Hs|exact Hi].
Defined.

(** ** The help *)

Lemma py_remove_snoc_fresh (x : Source) (l : list Source) :
  (∀ s, s ∈ l → oid s ≠ oid x) → py_remove x (l ++ [x]) = Some l.
Proof.
  induction l as [|y l IH]; intros Hl; simpl.
  - by rewrite decide_True.
  - rewrite decide_False by (apply Hl, elem_of_cons; by left).
    rewrite IH; [done|]. intros s Hs. apply Hl, elem_of_cons. by right.
Qed.

(** X8. Showing the help and quitting it again, on a pager with open sources
    that does not display the help: the sources are as before and the help
    flag is off again, but the focus is on the last source, whichever had
    it before. *)
Theorem display_help_quit_help HELP (p : Pager) :
  displaying_help p = false →
  sources p ≠ [] →
  (∀ s, s ∈ sources p → oid s ≠ next_id p) →
  ∃ p', quit_help (display_help HELP p) = Return p' ∧
        sources p' = sources p ∧
        displaying_help p' = false ∧
        current_source_index p' = (Z.of_nat (length (sources p)) - 1)%Z ∧
        index_valid p' ∧
        message p' = message p.
Proof.
  intros Hd Hne Hfresh.
  set (h := {| oid := next_id p; kind := StringSource HELP |}).
  set (p1 := add_source h (set_next_id (S (next_id p)) p)).
  assert (display_help HELP p = set_displaying_help true p1) as Hdh.
  { unfold display_help. by rewrite Hd. }
  destruct (add_source_attrs h (set_next_id (S (next_id p)) p))
    as (Hs1 & Hi1 & Hc1 & _ & _ & Hm1 & _).
  fold p1 in Hs1, Hi1, Hc1, Hm1. pager_simpl.
  assert (0 < length (sources p)) as Hpos
    by (destruct (sources p); simpl; [done|lia]).
  destruct (remove_current_source_many (set_displaying_help true p1)) as
    (cur & prev & q & l & Hcur & _ & Hq & Hs & _ & _ & Hmsg & Hl & Hr & _).
  { pager_simpl. rewrite Hs1, length_app. simpl. lia. }
  { unfold index_valid. pager_simpl. rewrite Hi1, Hs1, length_app. simpl. lia. }
  pager_simpl. rewrite Hi1, Hs1, py_getitem_last in Hcur. injection Hcur as <-.
  rewrite Hs1, py_remove_snoc_fresh in Hl by done. injection Hl as <-.
  destruct (focus_previous_source_nonempty (set_displaying_help true p1))
    as (q' & Hq' & _ & Hi' & _).
  { pager_simpl. rewrite Hs1. by destruct (sources p). }
  rewrite Hq in Hq'. injection Hq' as <-. pager_simpl.
  rewrite Hi1, Hs1, length_app in Hi'. simpl in Hi'.
  rewrite Z.mod_small in Hi' by lia.
  rewrite Hdh. unfold quit_help. pager_simpl. rewrite Hr. simpl.
  eexists. split; [reflexivity|]. pager_simpl.
  split; [done|]. split; [done|]. split; [done|]. split.
  - unfold index_valid. pager_simpl. lia.
  - by rewrite Hmsg.
Qed.

Lemma display_help_quit_help_witness :
  ∃ p', quit_help (display_help "help"
                     (add_source sample_generator
                        (add_source sample_pipe Pager_init))) = Return p' ∧
        sources p' = [sample_pipe; sample_generator] ∧
        current_source_index p' = 1%Z.
Proof.
  destruct (display_help_quit_help "help"
              (add_source sample_generator (add_source sample_pipe Pager_init)))
    as (p' & Hr & Hs & _ & Hi & _).
  { reflexivity. }
  { discriminate. }
  { intros s. simpl. rewrite !elem_of_cons.
    intros [->|[->|Hs]]; [done|done|by apply elem_of_nil in Hs]. }
  exists p'. split; [exact Hr|]. split; [exact Hs|exact Hi].
Defined.

(** X9. Quitting the help when at most one source is open (the help itself, if
    it was shown on an empty pager): nothing is removed, the message of the
    refused removal is set, and the help flag is cleared all the same, so
    that the next [display_help] opens the help a second time. *)
Theorem quit_help_last_source HELP (p : Pager) :
  displaying_help p = true →
  length (sources p) ≤ 1 →
  ∃ p', quit_help p = Return p' ∧
        sources p' = sources p ∧
        current_source_index p' = current_source_index p ∧
        message p' = Some "Can't remove the last buffer." ∧
        displaying_help p' = false ∧
        sources (display_help HELP p')
        = sources p ++ [{| oid := next_id p; kind := StringSource HELP |}].
Proof.
  intros Hd Hlen.
  destruct (remove_current_source_refused p Hlen)
    as (q & Hq & Hm & Hs & Hi & _ & _ & _ & _ & _ & Hn & _).
  unfold quit_help. rewrite Hd, Hq. simpl.
  eexists. split; [reflexivity|]. pager_simpl.
  split; [done|]. split; [done|]. split; [done|]. split; [done|].
  unfold display_help. pager_simpl.
  destruct (add_source_attrs {| oid := next_id q; kind := StringSource HELP |}
              (set_next_id (S (next_id q)) (set_displaying_help false q)))
    as (Hs' & _).
  pager_simpl. rewrite Hn, Hs in Hs'. rewrite Hn. exact Hs'.
Qed.

Lemma quit_help_last_source_witness :
  ∃ p', quit_help (display_help "help" Pager_init) = Return p' ∧
        message p' = Some "Can't remove the last buffer." ∧
        displaying_help p' = false ∧
        sources (display_help "help" p')
        = [{| oid := 1; kind := StringSource "help" |};
           {| oid := 3; kind := StringSource "help" |}].
Proof.
  destruct (quit_help_last_source "help" (display_help "help" Pager_init)
              eq_refl ltac:(simpl; lia))
    as (p' & Hr & _ & _ & Hm & Hd & Hs).
  exists p'. split; [exact Hr|]. split; [exact Hm|]. split; [exact Hd|exact Hs].
Defined.

(** ** The objects during a run *)

Lemma calm_object (p p' : Pager) a si :
  prefetch_inv p → calm p p' → heap p !! a = Some si → heap p' !! a = Some si.
Proof.
  intros (Hfresh & _) (_ & _ & _ & Hc) Ha.
  destruct (Hc a) as [->|[Hlt _]]; [done|].
  assert (a < next_id p) by (apply Hfresh; eauto). lia.
Qed.

Lemma step_touched (p : Pager) (ev : event) (p' : Pager) a si :
  prefetch_inv p → step p ev p' → heap p !! a = Some si →
  ∃ si', heap p' !! a = Some si' ∧ touched (forward_forever p) si si'.
Proof.
  intros Hinv Hstep Ha.
  pose proof (step_calm p ev p' Hstep) as Hcalm.
  destruct Hstep as [s p|p|p|p|ctor filename p|HELP p|p|v p|v p|p
                    |env p|env tokens key e si0 p Hr Hsi|env tokens i e si0 p Ht Hsi];
    try (exists si; split; [by eapply calm_object|constructor]).
  - unfold _on_render.
    destruct (lookup_info p (current_source p)) as [[a0 si0]|] eqn:Hl;
      [|exists si; split; [done|constructor]].
    apply lookup_info_Some in Hl as [_ Hsi0].
    destruct (negb _ && negb _); [|exists si; split; [done|constructor]].
    destruct (get_render_info env) as [info|];
      [|exists si; split; [done|constructor]].
    destruct (bool_decide _ || forward_forever p);
      [|exists si; split; [done|constructor]].
    assert (∃ si', (<[a0:=set_waiting true si0]> (heap p)) !! a = Some si' ∧
                   touched (forward_forever p) si si') as Hres.
    { destruct (decide (a = a0)) as [->|Hne].
      - rewrite lookup_insert_eq. assert (si0 = si) as -> by congruence.
        eexists. split; [done|constructor].
      - rewrite lookup_insert_ne by done. exists si. split; [done|constructor]. }
    by destruct (get_fd (current_source p)).
  - destruct (read_into (forward_forever p) tokens (ep_lines e) si0)
      as [[si1 n1]|] eqn:Hread.
    + rewrite (heap_receive_content_from_fd env tokens key e si0 si1 n1 p Hread).
      destruct (decide (a = ep_info e)) as [->|Hne].
      * rewrite lookup_insert_eq. assert (si0 = si) as -> by congruence.
        eexists. split; [done|].
        destruct (bool_decide _ || eof env _); econstructor; done.
      * rewrite lookup_insert_ne by done. exists si. split; [done|constructor].
    + unfold receive_content_from_fd. rewrite Hread. simpl.
      exists si. split; [done|constructor].
  - unfold receive_content_from_generator.
    destruct (bool_decide _ && negb _).
    + destruct (read_into (forward_forever p) tokens (ep_lines e) si0)
        as [[si1 n1]|] eqn:Hread; pager_simpl.
      * destruct (decide (a = ep_info e)) as [->|Hne].
        -- rewrite lookup_insert_eq. assert (si0 = si) as -> by congruence.
           eexists. split; [done|]. econstructor; done.
        -- rewrite lookup_insert_ne by done. exists si. split; [done|constructor].
      * exists si. split; [done|constructor].
    + pager_simpl. destruct (decide (a = ep_info e)) as [->|Hne].
      * rewrite lookup_insert_eq. assert (si0 = si) as -> by congruence.
        eexists. split; [done|]. constructor.
      * rewrite lookup_insert_ne by done. exists si. split; [done|constructor].
Qed.

Lemma extends_refl si : extends si si.
Proof. split; [done|]. split; [done|]. exists "". by rewrite string_app_nil_r. Qed.

Lemma extends_trans si1 si2 si3 :
  extends si1 si2 → extends si2 si3 → extends si1 si3.
Proof.
  intros (Hs1 & Hm1 & x & Hx) (Hs2 & Hm2 & y & Hy).
  split; [congruence|]. split; [congruence|].
  exists (x +:+ y). by rewrite Hy, Hx, string_app_assoc.
Qed.

Lemma read_into_extends ff tokens n si si1 n1 :
  read_into ff tokens n si = Some (si1, n1) → extends si si1.
Proof.
  unfold read_into.
  destruct (handle_content _ _ _) as [[[lt m] data]|]; [|done].
  intros [= <- _]. split; [done|]. split; [done|].
  exists (py_join data). unfold insert_text. by destruct ff.
Qed.

Lemma touched_extends ff si si' : touched ff si si' → extends si si'.
Proof.
  intros [|w|tokens n si1 n1 Hr|tokens n si1 n1 Hr].
  - apply extends_refl.
  - split; [done|]. split; [done|]. exists "". simpl. by rewrite string_app_nil_r.
  - by eapply read_into_extends.
  - apply read_into_extends in Hr as (Hs & Hm & x & Hx).
    split; [done|]. split; [done|]. by exists x.
Qed.

Lemma steps_reachable (p p' : Pager) : reachable p → steps p p' → reachable p'.
Proof.
  intros Hr Hs. induction Hs as [p|p ev p' p'' _ IH Hstep]; [done|].
  by apply (reachable_step p' ev p''); [apply IH|].
Qed.

(** X10. During a run no [_SourceInfo] object is dropped or reset and no text is
    taken back: an object alive at some point of a run is alive at every
    later point, for the same source and with the same marks, and its text
    then starts with the text it had. *)
Theorem buffers_append_only (p p' : Pager) a si :
  reachable p → steps p p' → heap p !! a = Some si →
  ∃ si', heap p' !! a = Some si' ∧ extends si si'.
Proof.
  intros Hreach Hsteps Ha. induction Hsteps as [p|p ev p' p'' Hsteps IH Hstep].
  - exists si. split; [done|apply extends_refl].
  - destruct (IH Hreach Ha) as (si1 & H1 & He1).
    destruct (step_touched p' ev p'' a si1) as (si2 & H2 & Ht); [|done|done|].
    { apply prefetch_inv_reachable. by eapply steps_reachable. }
    exists si2. split; [done|]. eapply extends_trans; [done|].
    by eapply touched_extends.
Qed.

Lemma buffers_append_only_witness :
  ∃ si', heap (state_of (_on_render (sample_env 5)
                           (add_source sample_pipe Pager_init))) !! 1
         = Some si' ∧
         extends (_SourceInfo_init sample_pipe) si'.
Proof.
  apply (buffers_append_only (add_source sample_pipe Pager_init)).
  - eapply reachable_step; [apply reachable_init|apply step_add_source].
  - eapply steps_step; [apply steps_refl|apply step_render].
  - reflexivity.
Defined.

(** X11. With follow-forever off no event moves a cursor: whatever happens, every
    [_SourceInfo] object keeps the cursor position of its buffer. *)
Theorem cursor_kept_without_follow (p : Pager) (ev : event) (p' : Pager) a si :
  reachable p → forward_forever p = false → step p ev p' →
  heap p !! a = Some si →
  ∃ si', heap p' !! a = Some si' ∧
         cursor_position (buffer si') = cursor_position (buffer si).
Proof.
  intros Hreach Hff Hstep Ha.
  destruct (step_touched p ev p' a si) as (si' & Ha' & Ht);
    [by apply prefetch_inv_reachable|done|done|].
  exists si'. split; [done|]. rewrite Hff in Ht.
  assert (∀ tokens n si1 n1, read_into false tokens n si = Some (si1, n1) →
            cursor_position (buffer si1) = cursor_position (buffer si)) as Hread.
  { intros tokens n si1 n1. unfold read_into.
    destruct (handle_content _ _ _) as [[[lt m] data]|]; [|done].
    by intros [= <- _]. }
  destruct Ht as [|w|tokens n si1 n1 Hr|tokens n si1 n1 Hr]; simpl;
    [done|done|by eapply Hread|by eapply Hread].
Qed.

Lemma cursor_kept_without_follow_witness :
  ∃ si', heap (state_of (_on_render (sample_env 5)
                           (add_source sample_pipe Pager_init))) !! 1
         = Some si' ∧
         cursor_position (buffer si') = 0%Z.
Proof.
  apply (cursor_kept_without_follow (add_source sample_pipe Pager_init)
           (ev_render (sample_env 5)) _ 1 (_SourceInfo_init sample_pipe)).
  - eapply reachable_step; [apply reachable_init|apply step_add_source].
  - reflexivity.
  - apply step_render.
  - reflexivity.
Defined.

(** ** The reader callbacks during a run *)

Lemma elem_of_episodes (e : Episode) (p : Pager) :
  e ∈ episodes p ↔ (∃ k, (k, e) ∈ readers p) ∨ e ∈ threads p.
Proof.
  unfold episodes. rewrite elem_of_app, list_elem_of_fmap. split.
  - intros [([k e'] & -> & Hin)|Hin]; [left; by exists k|by right].
  - intros [[k Hin]|Hin]; [left; by exists (k, e)|by right].
Qed.

Lemma step_episodes (p : Pager) (ev : event) (p' : Pager) (e' : Episode) :
  step p ev p' → e' ∈ episodes p' →
  (∃ e, e ∈ episodes p ∧ ep_info e = ep_info e')
  ∨ is_Some (heap p !! ep_info e').
Proof.
  intros Hstep Hin.
  pose proof (step_calm p ev p' Hstep) as Hcalm.
  destruct Hstep as [s p|p|p|p|ctor filename p|HELP p|p|v p|v p|p
                    |env p|env tokens key e si0 p Hr Hsi|env tokens i e si0 p Ht Hsi];
    try (left; exists e'; split; [|done];
         destruct Hcalm as (Hrs & Hts & _); unfold episodes in *;
         by rewrite <- Hrs, <- Hts).
  - revert Hin. unfold _on_render.
    destruct (lookup_info p (current_source p)) as [[a0 si0]|] eqn:Hl;
      [|by left; exists e'].
    apply lookup_info_Some in Hl as [_ Hsi0].
    destruct (negb _ && negb _); [|by left; exists e'].
    destruct (get_render_info env) as [info|]; [|by left; exists e'].
    destruct (bool_decide _ || forward_forever p); [|by left; exists e'].
    destruct (get_fd (current_source p)) as [fd|]; pager_simpl;
      rewrite elem_of_episodes; pager_simpl.
    + intros [[k Hin]|Hin].
      * apply elem_of_cons in Hin as [[= -> ->]|Hin]; [right; by eexists|].
        apply elem_of_remove_reader in Hin.
        left. exists e'. split; [|done]. apply elem_of_episodes. eauto.
      * left. exists e'. split; [|done]. apply elem_of_episodes. eauto.
    + intros [[k Hin]|Hin].
      * left. exists e'. split; [|done]. apply elem_of_episodes. eauto.
      * apply elem_of_app in Hin as [Hin|Hin].
        -- left. exists e'. split; [|done]. apply elem_of_episodes. eauto.
        -- apply list_elem_of_singleton in Hin as ->. right. by eexists.
  - revert Hin. unfold receive_content_from_fd.
    destruct (read_into (forward_forever p) tokens (ep_lines e) si0)
      as [[si1 n1]|] eqn:Hread; [|by left; exists e'].
    assert (∀ k, (k, e') ∈ update_reader key (set_lines n1 e) (readers p) →
                 ∃ e, e ∈ episodes p ∧ ep_info e = ep_info e') as Hupd.
    { intros k Hin. apply elem_of_update_reader in Hin as [Hin|[-> ->]].
      - exists e'. split; [|done]. apply elem_of_episodes. eauto.
      - exists e. split; [|done]. apply elem_of_episodes. left. exists key.
        by apply reader_of_elem_of. }
    destruct (bool_decide _ || eof env _); pager_simpl.
    + destruct (ep_fd e) as [fd|]; pager_simpl;
        rewrite elem_of_episodes; pager_simpl.
      * intros [[k Hin]|Hin].
        -- apply elem_of_remove_reader in Hin. left. by eapply Hupd.
        -- left. exists e'. split; [|done]. apply elem_of_episodes. eauto.
      * intros [[k Hin]|Hin].
        -- left. by eapply Hupd.
        -- left. exists e'. split; [|done]. apply elem_of_episodes. eauto.
    + rewrite elem_of_episodes; pager_simpl. intros [[k Hin]|Hin].
      * left. by eapply Hupd.
      * left. exists e'. split; [|done]. apply elem_of_episodes. eauto.
  - revert Hin. unfold receive_content_from_generator.
    assert (∀ (j : nat) (l : list Episode), e' ∈ delete j l → e' ∈ l) as Hdel.
    { intros j l. revert j. induction l as [|x l IH]; intros [|j]; simpl;
        rewrite ?elem_of_cons; try tauto. intros [->|Hin]; eauto. }
    destruct (bool_decide _ && negb _).
    + destruct (read_into (forward_forever p) tokens (ep_lines e) si0)
        as [[si1 n1]|] eqn:Hread; pager_simpl;
        rewrite elem_of_episodes; pager_simpl.
      * intros [[k Hin]|Hin].
        -- left. exists e'. split; [|done]. apply elem_of_episodes. eauto.
        -- apply list_elem_of_lookup_1 in Hin as [j Hj].
           destruct (decide (j = i)) as [->|Hne].
           ++ rewrite list_lookup_insert_eq in Hj
                by (by eapply lookup_lt_Some).
              injection Hj as <-. left. exists e. split; [|done].
              apply elem_of_episodes. right. by eapply list_elem_of_lookup_2.
           ++ rewrite list_lookup_insert_ne in Hj by done.
              left. exists e'. split; [|done].
              apply elem_of_episodes. right. by eapply list_elem_of_lookup_2.
      * intros [[k Hin]|Hin].
        -- left. exists e'. split; [|done]. apply elem_of_episodes. eauto.
        -- apply Hdel in Hin.
           left. exists e'. split; [|done]. apply elem_of_episodes. eauto.
    + pager_simpl. rewrite elem_of_episodes; pager_simpl.
      intros [[k Hin]|Hin].
      * left. exists e'. split; [|done]. apply elem_of_episodes. eauto.
      * apply Hdel in Hin.
        left. exists e'. split; [|done]. apply elem_of_episodes. eauto.
Qed.

Lemma episodes_alive_reachable (p : Pager) : reachable p → episodes_alive p.
Proof.
  induction 1 as [|p ev p' Hreach IH Hstep].
  - intros e He. apply elem_of_episodes in He as [[k He]|He];
      simpl in He; by apply elem_of_nil in He.
  - intros e' He'.
    assert (is_Some (heap p !! ep_info e')) as [si Hsi].
    { destruct (step_episodes p ev p' e' Hstep He') as [(e & He & <-)|]; auto. }
    destruct (step_touched p ev p' (ep_info e') si) as (si' & Hsi' & _);
      [by apply prefetch_inv_reachable|done|done|]. by eexists.
Qed.

(** X12. In a run the reader callbacks never raise: every registered reader and
    every live worker thread of a reachable pager has its [_SourceInfo]
    object alive, and whatever chunk arrives, [receive_content_from_fd] and
    the turn of [receive_content_from_generator] return; in particular the
    [IndexError] of [line_tokens[-1]] does not occur. *)
Theorem readers_return (p : Pager) :
  reachable p →
  (∀ key e, reader_of key (readers p) = Some e →
     ∃ si, heap p !! ep_info e = Some si ∧
           ∀ env tokens, ∃ p',
             receive_content_from_fd env tokens key e si p = Return p') ∧
  (∀ i e, threads p !! i = Some e →
     ∃ si, heap p !! ep_info e = Some si ∧
           ∀ env tokens, ∃ p',
             receive_content_from_generator env tokens i e si p = Return p').
Proof.
  intros Hreach.
  assert (heap_all text_lines_equiv p) as Hall.
  { apply heap_all_reachable; eauto using text_lines_equiv_init,
      text_lines_equiv_set_waiting, text_lines_equiv_read. }
  pose proof (episodes_alive_reachable p Hreach) as Halive.
  split.
  - intros key e Hr.
    destruct (Halive e) as [si Hsi].
    { apply elem_of_episodes. left. exists key. by apply reader_of_elem_of. }
    exists si. split; [done|]. intros env tokens.
    destruct (read_into_equiv (forward_forever p) tokens (ep_lines e) si)
      as (si' & Hread & _); [by eapply Hall|].
    unfold receive_content_from_fd. rewrite Hread. by eexists.
  - intros i e Ht.
    destruct (Halive e) as [si Hsi].
    { apply elem_of_episodes. right. by eapply list_elem_of_lookup_2. }
    exists si. split; [done|]. intros env tokens.
    destruct (read_into_equiv (forward_forever p) tokens (ep_lines e) si)
      as (si' & Hread & _); [by eapply Hall|].
    unfold receive_content_from_generator. rewrite Hread.
    destruct (bool_decide _ && negb _); by eexists.
Qed.

Lemma readers_return_witness :
  ∃ si, heap (state_of (_on_render (sample_env 5)
                          (add_source sample_pipe Pager_init))) !! 1 = Some si ∧
        ∀ env tokens, ∃ p',
          receive_content_from_fd env tokens 0
            {| ep_source := sample_pipe; ep_info := 1; ep_lines := 15;
               ep_fd := Some 0%Z |} si
            (state_of (_on_render (sample_env 5)
                         (add_source sample_pipe Pager_init))) = Return p'.
Proof.
  apply (proj1 (readers_return
                  (state_of (_on_render (sample_env 5)
                               (add_source sample_pipe Pager_init)))
                  ltac:(eapply reachable_step;
                        [eapply reachable_step;
                         [apply reachable_init|apply step_add_source]
                        |apply step_render])) 0%Z
           {| ep_source := sample_pipe; ep_info := 1; ep_lines := 15;
              ep_fd := Some 0%Z |}).
  reflexivity.
Defined.

(** ** The index during a run *)

Lemma index_bounded_attrs (p p' : Pager) :
  sources p' = sources p → current_source_index p' = current_source_index p →
  index_bounded p → index_bounded p'.
Proof. unfold index_bounded. by intros -> ->. Qed.

Lemma index_bounded_add_source (s : Source) (p : Pager) :
  index_bounded (add_source s p).
Proof.
  destruct (add_source_attrs s p) as (Hs & Hi & _).
  unfold index_bounded. rewrite Hs, Hi, length_app. simpl. lia.
Qed.

Lemma index_bounded_focus_previous_source (p : Pager) :
  index_bounded p → index_bounded (state_of (focus_previous_source p)).
Proof.
  intros Hb. destruct (decide (sources p = [])) as [He|Hne].
  - unfold focus_previous_source. by rewrite He.
  - destruct (focus_previous_source_nonempty p Hne) as (q & -> & Hs & Hi & _).
    simpl. unfold index_bounded. rewrite Hs, Hi.
    pose proof (mod_length_valid (current_source_index p - 1) (sources p) Hne).
    lia.
Qed.

Lemma index_bounded_focus_next_source (p : Pager) :
  index_bounded p → index_bounded (state_of (focus_next_source p)).
Proof.
  intros Hb. destruct (decide (sources p = [])) as [He|Hne].
  - unfold focus_next_source. by rewrite He.
  - destruct (focus_next_source_nonempty p Hne) as (q & -> & Hs & Hi & _).
    simpl. unfold index_bounded. rewrite Hs, Hi.
    pose proof (mod_length_valid (current_source_index p + 1) (sources p) Hne).
    lia.
Qed.

Lemma index_bounded_remove_current_source (p : Pager) :
  index_bounded p → index_bounded (state_of (remove_current_source p)).
Proof.
  intros Hb. unfold remove_current_source.
  destruct (decide (1 < length (sources p))) as [Hlen|Hlen]; [|done].
  assert (sources p ≠ []) as Hne by (destruct (sources p); simpl in *; [lia|done]).
  destruct (focus_previous_source_nonempty p Hne) as (q & -> & Hs & Hi & _).
  simpl.
  pose proof (mod_length_valid (current_source_index p - 1) (sources p) Hne) as Hm.
  destruct (py_remove (current_source p) (sources q)) as [l|] eqn:Hl; simpl.
  - apply py_remove_length in Hl. unfold index_bounded. pager_simpl.
    rewrite Hs in Hl. rewrite Hi. lia.
  - unfold index_bounded. rewrite Hs, Hi. lia.
Qed.

Lemma index_bounded_quit_help (p : Pager) :
  index_bounded p → index_bounded (state_of (quit_help p)).
Proof.
  intros Hb. unfold quit_help. destruct (displaying_help p); [|done].
  pose proof (index_bounded_remove_current_source p Hb) as Hr.
  by destruct (remove_current_source p).
Qed.

Lemma registry_on_render env (p : Pager) :
  sources (state_of (_on_render env p)) = sources p ∧
  current_source_index (state_of (_on_render env p)) = current_source_index p.
Proof.
  unfold _on_render.
  destruct (lookup_info p (current_source p)) as [[a si]|]; [|done].
  destruct (negb _ && negb _); [|done].
  destruct (get_render_info env) as [info|]; [|done].
  destruct (bool_decide _ || forward_forever p); [|done].
  by destruct (get_fd (current_source p)).
Qed.

Lemma registry_receive_content_from_fd env tokens key e si (p : Pager) :
  sources (state_of (receive_content_from_fd env tokens key e si p)) = sources p ∧
  current_source_index (state_of (receive_content_from_fd env tokens key e si p))
  = current_source_index p.
Proof.
  unfold receive_content_from_fd.
  destruct (read_into _ _ _ _) as [[si1 n1]|]; [|done].
  destruct (bool_decide _ || eof env _); [|done].
  by destruct (ep_fd _).
Qed.

Lemma registry_receive_content_from_generator env tokens i e si (p : Pager) :
  sources (state_of (receive_content_from_generator env tokens i e si p))
  = sources p ∧
  current_source_index
    (state_of (receive_content_from_generator env tokens i e si p))
  = current_source_index p.
Proof.
  unfold receive_content_from_generator.
  destruct (bool_decide _ && negb _); [|done].
  by destruct (read_into _ _ _ _) as [[si1 n1]|].
Qed.

Lemma index_bounded_step (p : Pager) (ev : event) (p' : Pager) :
  step p ev p' → index_bounded p → index_bounded p'.
Proof.
  intros Hstep Hb.
  destruct Hstep as [s p|p|p|p|ctor filename p|HELP p|p|v p|v p|p
                    |env p|env tokens key e si0 p Hr Hsi|env tokens i e si0 p Ht Hsi];
    try done.
  - apply index_bounded_add_source.
  - by apply index_bounded_remove_current_source.
  - by apply index_bounded_focus_previous_source.
  - by apply index_bounded_focus_next_source.
  - unfold open_file. destruct (ctor filename) as [[]|]; try done.
    apply index_bounded_add_source.
  - unfold display_help. destruct (displaying_help p); [done|].
    apply (index_bounded_attrs
             (add_source {| oid := next_id p; kind := StringSource HELP |}
                (set_next_id (S (next_id p)) p))); [done|done|].
    apply index_bounded_add_source.
  - by apply index_bounded_quit_help.
  - destruct (registry_on_render env p) as [Hs Hi].
    by apply (index_bounded_attrs p).
  - destruct (registry_receive_content_from_fd env tokens key e si0 p) as [Hs Hi].
    by apply (index_bounded_attrs p).
  - destruct (registry_receive_content_from_generator env tokens i e si0 p)
      as [Hs Hi].
    by apply (index_bounded_attrs p).
Qed.

(** X13. In a run the index never leaves the range from 0 to [len(sources)]: it
    is never negative and at most one past the last position.  So the
    focused source is an open source, or the index is exactly
    [len(sources)] and [current_source] is the dummy source. *)
Theorem index_bounded_reachable (p : Pager) :
  reachable p →
  index_bounded p ∧
  (current_source p ∈ sources p ∨
   (current_source_index p = Z.of_nat (length (sources p)) ∧
    current_source p = _dummy_source)).
Proof.
  intros Hreach.
  assert (index_bounded p) as Hb.
  { induction Hreach as [|p ev p' _ IH Hstep].
    - unfold index_bounded. simpl. lia.
    - by eapply index_bounded_step. }
  split; [done|].
  destruct (decide (current_source_index p = Z.of_nat (length (sources p))))
    as [He|Hne].
  - right. split; [done|]. unfold current_source.
    rewrite py_getitem_nonneg by lia.
    rewrite lookup_ge_None_2; [done|lia].
  - left. apply current_source_valid. unfold index_bounded, index_valid in *. lia.
Qed.

Lemma index_bounded_reachable_witness :
  index_bounded
    (state_of (remove_current_source
       (state_of (focus_next_source
          (add_source sample_generator (add_source sample_pipe Pager_init)))))).
Proof.
  apply index_bounded_reachable.
  eapply reachable_step; [|apply step_remove_current_source].
  eapply reachable_step; [|apply step_focus_next_source].
  eapply reachable_step; [|apply step_add_source].
  eapply reachable_step; [apply reachable_init|apply step_add_source].
Defined.

(** X14. Cycling forth and back: on a registry with a valid index,
    [focus_next_source] followed by [focus_previous_source], and the two in
    the other order, both return and leave the index and the sources as they
    were; the colon mode is off afterwards. *)
Theorem focus_round_trip (p : Pager) :
  index_valid p →
  ∃ p1 p2 q1 q2,
    focus_next_source p = Return p1 ∧ focus_previous_source p1 = Return p2 ∧
    focus_previous_source p = Return q1 ∧ focus_next_source q1 = Return q2 ∧
    sources p2 = sources p ∧ sources q2 = sources p ∧
    current_source_index p2 = current_source_index p ∧
    current_source_index q2 = current_source_index p ∧
    current_source p2 = current_source p ∧
    current_source q2 = current_source p ∧
    in_colon_mode p2 = false ∧ in_colon_mode q2 = false.
Proof.
  intros Hv.
  assert (sources p ≠ []) as Hne.
  { unfold index_valid in Hv. destruct (sources p); simpl in *; [lia|done]. }
  destruct (focus_next_source_nonempty p Hne) as (p1 & Hp1 & Hs1 & Hi1 & _).
  destruct (focus_previous_source_nonempty p Hne) as (q1 & Hq1 & Ht1 & Hj1 & _).
  destruct (focus_previous_source_nonempty p1) as (p2 & Hp2 & Hs2 & Hi2 & Hc2 & _);
    [by rewrite Hs1|].
  destruct (focus_next_source_nonempty q1) as (q2 & Hq2 & Ht2 & Hj2 & Hd2 & _);
    [by rewrite Ht1|].
  assert (current_source_index p2 = current_source_index p) as Hi.
  { rewrite Hi2, Hi1, Hs1. unfold index_valid in Hv.
    set (n := Z.of_nat (length (sources p))) in *.
    rewrite Zminus_mod_idemp_l.
    replace (current_source_index p + 1 - 1)%Z with (current_source_index p)
      by lia.
    apply Z.mod_small. lia. }
  assert (current_source_index q2 = current_source_index p) as Hj.
  { rewrite Hj2, Hj1, Ht1. unfold index_valid in Hv.
    set (n := Z.of_nat (length (sources p))) in *.
    rewrite Zplus_mod_idemp_l.
    replace (current_source_index p - 1 + 1)%Z with (current_source_index p)
      by lia.
    apply Z.mod_small. lia. }
  exists p1, p2, q1, q2.
  repeat (split; [first [done|congruence]|]).
  unfold current_source. repeat split; try done;
    first [by rewrite Hs2, Hs1, Hi | by rewrite Ht2, Ht1, Hj | idtac].
Qed.

Lemma focus_round_trip_witness :
  ∃ p1 p2,
    focus_next_source (add_source sample_generator
                         (add_source sample_pipe Pager_init)) = Return p1 ∧
    focus_previous_source p1 = Return p2 ∧
    current_source_index p2 = 1%Z ∧
    current_source p2 = sample_generator.
Proof.
  destruct (focus_round_trip
              (add_source sample_generator (add_source sample_pipe Pager_init)))
    as (p1 & p2 & _ & _ & H1 & H2 & _ & _ & _ & _ & Hi & _ & Hc & _).
  { unfold index_valid. simpl. lia. }
  exists p1, p2. split; [exact H1|]. split; [exact H2|].
  split; [exact Hi|exact Hc].
Defined.

(** ** Whole episodes *)

Lemma reader_of_remove_reader (fd : Z) (rs : list (Z * Episode)) :
  reader_of fd (remove_reader fd rs) = None.
Proof.
  induction rs as [|r rs IH]; [done|]. rewrite remove_reader_cons.
  destruct (decide (r.1 = fd)) as [He|Hne]; [done|].
  simpl. by rewrite decide_False.
Qed.

(** X15. One episode on a source with a descriptor.  From a reachable pager whose
    focused source is idle, not at eof, has a descriptor [fd] and too few
    lines below the bottom (or follow-forever is on): the render cycle
    registers a reader under [fd], and when the chunk that then arrives
    holds at least as many terminators as the deficit, or the source is at
    eof after it, the callback appends the characters of the chunk to the
    text, removes the reader and clears the flag; no worker thread is
    involved and the application was invalidated twice. *)
Theorem fd_episode (env env' : Env) (p : Pager) a si info fd tokens :
  reachable p →
  idle_not_eof env p a si →
  get_render_info env = Some info →
  (lines_below_bottom info < window_height info * 2)%Z
  ∨ forward_forever p = true →
  get_fd (current_source p) = Some fd →
  (window_height info * 2 - lines_below_bottom info
   ≤ Z.of_nat (terminators tokens))%Z
  ∨ eof env' (current_source p) = true →
  ∃ p1 e p2 si',
    _on_render env p = Return p1 ∧
    reader_of fd (readers p1) = Some e ∧
    heap p1 !! ep_info e = Some (set_waiting true si) ∧
    receive_content_from_fd env' tokens fd e (set_waiting true si) p1
    = Return p2 ∧
    reader_of fd (readers p2) = None ∧
    heap p2 !! a = Some si' ∧
    waiting_for_input_stream si' = false ∧
    text (buffer si') = text (buffer si) +:+ py_join (snd <$> tokens) ∧
    text_lines_equiv si' ∧
    threads p2 = threads p ∧
    invalidations p2 = invalidations p + 2.
Proof.
  intros Hreach Hidle Hinfo Hc Hfd Hend.
  pose proof Hidle as (Hl & Hw & He).
  apply lookup_info_Some in Hl as [_ Hsi].
  assert (text_lines_equiv si) as Heq.
  { eapply (heap_all_reachable text_lines_equiv); eauto using
      text_lines_equiv_init, text_lines_equiv_set_waiting, text_lines_equiv_read. }
  rewrite (on_render_idle env p a si info Hidle Hinfo).
  assert (bool_decide (lines_below_bottom info < window_height info * 2)%Z
          || forward_forever p = true) as ->.
  { destruct Hc as [Hc| ->]; [|by rewrite orb_true_r].
    by rewrite bool_decide_eq_true_2. }
  cbv zeta. rewrite Hfd.
  set (e := {| ep_source := current_source p; ep_info := a;
               ep_lines := (window_height info * 2 - lines_below_bottom info)%Z;
               ep_fd := Some fd |}).
  set (p1 := set_readers _ _).
  destruct (read_into_equiv (forward_forever p) tokens (ep_lines e)
              (set_waiting true si)) as (si1 & Hread & Heq1 & Htext & _);
    [by apply text_lines_equiv_set_waiting|].
  assert (bool_decide
            (ep_lines e - Z.of_nat (terminators tokens) ≤ 0)%Z
          || eof env' (current_source p) = true) as Hcond.
  { destruct Hend as [Hend| ->]; [|by rewrite orb_true_r].
    rewrite bool_decide_eq_true_2; [done|]. simpl. lia. }
  exists p1, e. eexists. exists (set_waiting false si1).
  split; [done|]. split; [simpl; by rewrite decide_True|].
  split; [simpl; by rewrite lookup_insert_eq|].
  split.
  { unfold receive_content_from_fd.
    change (forward_forever p1) with (forward_forever p). rewrite Hread.
    pager_simpl. change (ep_source e) with (current_source p).
    change (ep_fd e) with (Some fd). change (ep_info e) with a.
    rewrite Hcond. reflexivity. }
  subst p1 e. pager_simpl. split; [apply reader_of_remove_reader|].
  split; [by rewrite lookup_insert_eq|]. split; [done|].
  split; [exact Htext|]. split; [by apply text_lines_equiv_set_waiting|].
  split; [done|lia].
Qed.

Lemma fd_episode_witness :
  ∃ p1 e p2 si',
    _on_render (sample_env 5) (add_source sample_pipe Pager_init) = Return p1 ∧
    reader_of 0 (readers p1) = Some e ∧
    receive_content_from_fd
      {| get_render_info := None; source_eof := λ _, true |}
      [([], "a"); ([], newline)] 0 e
      (set_waiting true (_SourceInfo_init sample_pipe)) p1 = Return p2 ∧
    reader_of 0 (readers p2) = None ∧
    heap p2 !! 1 = Some si' ∧
    text (buffer si')
    = "" +:+ py_join (snd <$> ([([], "a"); ([], newline)] : list token_char)).
Proof.
  destruct (fd_episode (sample_env 5)
              {| get_render_info := None; source_eof := λ _, true |}
              (add_source sample_pipe Pager_init) 1
              (_SourceInfo_init sample_pipe) (sample_info 5) 0
              [([], "a"); ([], newline)])
    as (p1 & e & p2 & si' & H1 & H2 & _ & H3 & H4 & H5 & _ & H6 & _).
  - eapply reachable_step; [apply reachable_init|apply step_add_source].
  - repeat split; reflexivity.
  - reflexivity.
  - left. vm_compute. reflexivity.
  - reflexivity.
  - right. reflexivity.
  - exists p1, e, p2, si'. repeat split; assumption.
Defined.

(** X16. Follow-forever on a source without a descriptor, when enough lines are
    below the bottom already: the render cycle starts a worker thread with
    a deficit that is not positive; the loop of the thread fails its test
    at once, so the thread ends without reading a chunk, whatever the
    source would deliver.  The object is as before the render, the thread
    is gone, and the application has been invalidated once. *)
Theorem follow_forever_worker_reads_nothing (env env' : Env) (p : Pager)
    a si info tokens :
  idle_not_eof env p a si →
  get_render_info env = Some info →
  forward_forever p = true →
  (window_height info * 2 ≤ lines_below_bottom info)%Z →
  get_fd (current_source p) = None →
  ∃ p1 e p2,
    _on_render env p = Return p1 ∧
    threads p1 = threads p ++ [e] ∧
    (ep_lines e ≤ 0)%Z ∧
    heap p1 !! ep_info e = Some (set_waiting true si) ∧
    receive_content_from_generator env' tokens (length (threads p)) e
      (set_waiting true si) p1 = Return p2 ∧
    threads p2 = threads p ∧
    readers p2 = readers p ∧
    heap p2 !! a = Some si ∧
    invalidations p2 = S (invalidations p).
Proof.
  intros Hidle Hinfo Hff Hlb Hfd.
  pose proof Hidle as (Hl & Hw & He).
  apply lookup_info_Some in Hl as [_ Hsi].
  rewrite (on_render_idle env p a si info Hidle Hinfo).
  rewrite Hff, orb_true_r. cbv zeta. rewrite Hfd.
  set (e := {| ep_source := current_source p; ep_info := a;
               ep_lines := (window_height info * 2 - lines_below_bottom info)%Z;
               ep_fd := None |}).
  set (p1 := set_threads _ _).
  exists p1, e. eexists.
  split; [done|]. split; [done|]. split; [simpl; lia|].
  split; [simpl; by rewrite lookup_insert_eq|].
  split.
  { unfold receive_content_from_generator.
    rewrite bool_decide_eq_false_2 by (simpl; lia). reflexivity. }
  subst p1 e. pager_simpl.
  split; [by rewrite delete_middle, app_nil_r|].
  split; [done|]. split; [|done].
  rewrite lookup_insert_eq. f_equal.
  destruct si; simpl in *. by rewrite Hw.
Qed.

Lemma follow_forever_worker_reads_nothing_witness :
  ∃ p1 e p2,
    _on_render (sample_env 25)
      (set_forward_forever true (add_source sample_generator Pager_init))
    = Return p1 ∧
    receive_content_from_generator (sample_env 25) [([], "a")] 0 e
      (set_waiting true (_SourceInfo_init sample_generator)) p1 = Return p2 ∧
    threads p2 = [] ∧
    heap p2 !! 1 = Some (_SourceInfo_init sample_generator).
Proof.
  destruct (follow_forever_worker_reads_nothing (sample_env 25) (sample_env 25)
              (set_forward_forever true (add_source sample_generator Pager_init))
              1 (_SourceInfo_init sample_generator) (sample_info 25)
              [([], "a")])
    as (p1 & e & p2 & H1 & _ & _ & _ & H2 & H3 & _ & H4 & _).
  - repeat split; reflexivity.
  - reflexivity.
  - reflexivity.
  - vm_compute. discriminate.
  - reflexivity.
  - exists p1, e, p2. repeat split; assumption.
Defined.

(** ** The pager on a pipe *)

(** X17. [from_pipe] refuses a terminal; on a pipe it gives a pager with the pipe
    as its only source, focused at a valid index and registered.  On the
    first render cycle that has render info, while the pipe is not at eof
    and fewer than two pages of lines are below the bottom, a reader is
    registered under the descriptor of stdin, no thread is started, and the
    flag of the pipe is set. *)
Theorem from_pipe_first_render (stdin_fileno : Z) :
  from_pipe true stdin_fileno = None ∧
  ∃ p, from_pipe false stdin_fileno = Some p ∧
       sources p = [{| oid := 1; kind := PipeSource stdin_fileno |}] ∧
       index_valid p ∧
       (∀ s, s ∈ sources p → is_Some (lookup_info p s)) ∧
       ∀ env info,
         get_render_info env = Some info →
         source_eof env {| oid := 1; kind := PipeSource stdin_fileno |} = false →
         (lines_below_bottom info < window_height info * 2)%Z →
         ∃ p' e, _on_render env p = Return p' ∧
                 readers p' = [(stdin_fileno, e)] ∧
                 threads p' = [] ∧
                 ep_lines e
                 = (window_height info * 2 - lines_below_bottom info)%Z ∧
                 flagged (ep_info e) p' = true.
Proof.
  split; [done|]. eexists. split; [reflexivity|].
  set (src := {| oid := 1; kind := PipeSource stdin_fileno |}).
  set (p := add_source _ _).
  split; [done|]. split; [unfold index_valid; simpl; lia|].
  split.
  { intros s Hs. apply list_elem_of_singleton in Hs as ->. by eexists. }
  intros env info Hinfo Heof Hlb.
  assert (idle_not_eof env p 2 (_SourceInfo_init src)) as Hidle.
  { split; [done|]. split; [done|]. exact Heof. }
  rewrite (on_render_idle env p 2 _ info Hidle Hinfo).
  rewrite bool_decide_eq_true_2 by done. simpl.
  eexists _, {| ep_source := src; ep_info := 2;
                ep_lines := (window_height info * 2 - lines_below_bottom info)%Z;
                ep_fd := Some stdin_fileno |}.
  split; [reflexivity|]. split; [done|]. split; [done|]. split; [done|].
  unfold flagged. simpl. by rewrite lookup_insert_eq.
Qed.

Lemma from_pipe_first_render_witness :
  ∃ p p' e, from_pipe false 0 = Some p ∧
            _on_render (sample_env 5) p = Return p' ∧
            readers p' = [(0%Z, e)] ∧ ep_lines e = 15%Z.
Proof.
  destruct (from_pipe_first_render 0) as (_ & p & Hp & _ & _ & _ & Hrender).
  destruct (Hrender (sample_env 5) (sample_info 5)) as (p' & e & H1 & H2 & _ & H3 & _).
  - reflexivity.
  - reflexivity.
  - vm_compute. reflexivity.
  - exists p, p', e. split; [exact Hp|]. split; [exact H1|].
    split; [exact H2|exact H3].
Defined.

(** ** The style *)

(** X18. A token that starts with ['C'] describes its own style: the UI style is
    not consulted, the attributes are the seven elements after the ['C'] in
    order, and [ValueError] is raised exactly when the token has not eight
    elements.  Every other token, the empty one included, gets what the UI
    style gives. *)
Theorem get_attrs_for_token_spec (ui_style : list pyvalue → exn + Attrs)
    (token : list pyvalue) :
  (∀ rest, token = PStr "C" :: rest →
     (get_attrs_for_token ui_style token = inl ValueError ↔ length rest ≠ 7) ∧
     (∀ attrs, get_attrs_for_token ui_style token = inr attrs →
        rest = [attr_color attrs; attr_bgcolor attrs; attr_bold attrs;
                attr_underline attrs; attr_italic attrs; attr_blink attrs;
                attr_reverse attrs]) ∧
     (∀ other, get_attrs_for_token other token
               = get_attrs_for_token ui_style token)) ∧
  (head token ≠ Some (PStr "C") →
   get_attrs_for_token ui_style token = ui_style token).
Proof.
  split.
  - intros rest ->. unfold get_attrs_for_token. rewrite decide_True by done.
    destruct rest as [|fg [|bg [|bo [|un [|it [|bl [|re [|x rest]]]]]]]];
      simpl; (split; [split; intros H|split; [intros attrs H|done]]);
      try discriminate H; try done; try lia.
    by injection H as <-.
  - intros Hh. unfold get_attrs_for_token.
    destruct token as [|[c| |] token]; try done.
    destruct (decide (c = "C")) as [->|Hne]; [|done].
    exfalso. by apply Hh.
Qed.

Lemma get_attrs_for_token_spec_witness :
  get_attrs_for_token (λ _, inl KeyError) [PStr "C"; PStr "#44aaff"]
  = inl ValueError ∧
  get_attrs_for_token (λ _, inl KeyError) [PStr "Standout"] = inl KeyError.
Proof.
  split.
  - apply (proj1 (proj1 (get_attrs_for_token_spec (λ _, inl KeyError)
                           [PStr "C"; PStr "#44aaff"])
                    [PStr "#44aaff"] eq_refl)).
    simpl. lia.
  - apply (proj2 (get_attrs_for_token_spec (λ _, inl KeyError)
                    [PStr "Standout"])).
    simpl. intros H. discriminate H.
Defined.
